(** * RenderEffect JNI bindings (libs/hwui/jni/RenderEffect.cpp)

    The file under study is a JNI shim: every entry point turns its [jlong]
    handles back into pointers, takes a reference on each of them with
    [sk_ref_sp], calls one factory of the graphics library and hands the
    resulting pointer back as a [jlong].

    The development has three layers.
    - The graphics library (reference counting, the image-filter factories,
      rasterisation) and the two helpers of this repository that the file
      calls ([Blur::convertRadiusToSigma], [Bitmap::makeImage]) are not part
      of the file; they are modelled from the specification, and what the
      specification leaves open is a parameter ([Raster], [SkLibrary]).
    - The entry points themselves are transcribed statement by statement
      into a state-and-failure monad over the native heap.
    - The theorems are about the entry points. *)

From Stdlib Require Import ZArith Lia.
From Stdlib Require Import Floats.SpecFloat.
From Stdlib Require Import Ascii.
From stdpp Require Import base option list strings gmap gmultiset fin_maps.

Open Scope Z_scope.

(** ** JNI scalar types

    [jlong] and native pointers are both 64 bits wide on the platforms the
    file is built for, and [reinterpret_cast] between them keeps the bit
    pattern.  An address is represented by the integer its bit pattern
    denotes as a [jlong]; the cast is then the identity and [nullptr] is 0.
    Addresses are not bounded here: exhaustion of the address space is not
    modelled. *)
Abbreviation jlong := Z (only parsing).
Abbreviation jint := Z (only parsing).
Abbreviation ptr := Z (only parsing).
Definition jfloat : Type := spec_float.
Definition nullptr : ptr := 0.

Definition reinterpret_cast (x : Z) : Z := x.

(** ** Plain data of the graphics library *)

Record SkRect := MakeLTRB { fLeft : jfloat; fTop : jfloat; fRight : jfloat; fBottom : jfloat }.

(** [static_cast<SkTileMode>(jint)] and [static_cast<SkBlendMode>(jint)] keep
    the integer: the enumerators are declared in the library's headers and an
    enumeration value is its underlying integer. *)
Inductive SkTileMode := SkTileMode_of (v : jint).
Inductive SkBlendMode := SkBlendMode_of (v : jint).
Inductive SkFilterQuality :=
  | kNone_SkFilterQuality
  | kLow_SkFilterQuality
  | kMedium_SkFilterQuality
  | kHigh_SkFilterQuality.

(** Modelled from the spec: rasterisation is owned by the graphics library
    and excluded from the file ("filter graph evaluation, compositing math,
    colour filter semantics").  What each kind of node does to an image is a
    parameter; only the way nodes are wired together is fixed below. *)
Class Raster := {
  image : Type;
  color_transform : Type;
  raster_offset : jfloat -> jfloat -> image -> image;
  raster_blur : jfloat -> jfloat -> SkTileMode -> image -> image;
  raster_image : image -> SkRect -> SkRect -> SkFilterQuality -> image;
  raster_color : color_transform -> image -> image;
  (** [raster_blend mode background foreground] *)
  raster_blend : SkBlendMode -> image -> image -> image;
}.

Section RenderEffect.
Context {R : Raster}.

(** ** Reference-counted objects of the library

    Every field of type [sk_sp<T>] is an address (0 when the [sk_sp] is
    empty).  The crop rectangle of the blur and colour-filter nodes is always
    [nullptr] in this file and is left out. *)
Inductive SkObject :=
  | SkImage (pixels : image)
  | SkColorFilter (c : color_transform)
  | SkOffsetImageFilter (dx dy : jfloat) (input : ptr)
  | SkBlurImageFilter (sigmaX sigmaY : jfloat) (tileMode : SkTileMode) (input : ptr)
  | SkImageImageFilter (img : ptr) (srcRect dstRect : SkRect) (quality : SkFilterQuality)
  | SkColorFilterImageFilter (cf : ptr) (input : ptr)
  | SkBlendImageFilter (mode : SkBlendMode) (background foreground : ptr)
  | SkComposeImageFilter (outer inner : ptr).

Record SkRefCnt := { fRefCnt : positive; object : SkObject }.

(** The native heap, and the pixel store of the bitmaps known to the managed
    side (keyed by bitmap handle). *)
Record world := { heap : gmap Z SkRefCnt; bitmaps : gmap Z image }.

Definition set_heap (h : gmap Z SkRefCnt) (w : world) : world :=
  {| heap := h; bitmaps := bitmaps w |}.

(** The references an object holds: its non-empty [sk_sp] fields. *)
Definition sk_sp_fields (o : SkObject) : list Z :=
  filter (λ p, p ≠ nullptr)
    match o with
    | SkImage _ | SkColorFilter _ => []
    | SkOffsetImageFilter _ _ input => [input]
    | SkBlurImageFilter _ _ _ input => [input]
    | SkImageImageFilter img _ _ _ => [img]
    | SkColorFilterImageFilter cf input => [cf; input]
    | SkBlendImageFilter _ background foreground => [background; foreground]
    | SkComposeImageFilter outer inner => [outer; inner]
    end.

(** Modelled from the spec: what the specification leaves to the library and
    to the rest of the repository.
    - [sk_new]: the address [operator new] returns, given the addresses in
      use; any address that is not null and not in use (an address freed
      earlier may come back).
    - [sk_accepts]: whether a factory builds a node for these arguments; the
      specification only says that a factory that "cannot construct a node"
      returns a null reference.
    - [convertRadiusToSigma]: [Blur::convertRadiusToSigma] of
      libs/hwui/utils/Blur.cpp, "a fixed deterministic formula". *)
Class SkLibrary := {
  sk_new : gset Z -> Z;
  sk_new_fresh : forall used, sk_new used ∉ used;
  sk_new_nonnull : forall used, sk_new used <> nullptr;
  sk_accepts : SkObject -> bool;
  convertRadiusToSigma : jfloat -> jfloat;
}.

Context {L : SkLibrary}.

(** ** The monad of native code: a state, and [None] for undefined behaviour
    (a dangling or foreign pointer is dereferenced). *)
Definition M (A : Type) : Type := world -> option (A * world).

Definition ret {A} (a : A) : M A := λ w, Some (a, w).
Definition bind {A B} (m : M A) (k : A -> M B) : M B :=
  λ w, match m w with Some (a, w') => k a w' | None => None end.

Notation "'let*' x ':=' m 'in' k" := (bind m (λ x, k))
  (at level 10, x name, m at level 100, k at level 200).
Notation "'do*' m 'in' k" := (bind m (λ _, k))
  (at level 10, m at level 100, k at level 200).

Fixpoint for_each {A} (f : A -> M unit) (l : list A) : M unit :=
  match l with
  | [] => ret tt
  | a :: l => do* f a in for_each f l
  end.

(** ** Reference counting (the library's SkRefCnt.h)

    The file relies on [sk_ref_sp], [sk_sp::release], the destructor of
    [sk_sp] and [SkSafeUnref]; none of them is part of it.  Counts are not
    bounded here. *)

Definition with_refcnt (n : positive) (o : SkRefCnt) : SkRefCnt :=
  {| fRefCnt := n; object := object o |}.

(** Modelled from the spec: [SkRefCnt::ref()], "external library increments
    its own refcount".  Undefined on an address that holds no object. *)
Definition SkRefCnt_ref (p : ptr) : M unit := λ w,
  match heap w !! p with
  | Some o => Some (tt, set_heap (<[p := with_refcnt (Pos.succ (fRefCnt o)) o]> (heap w)) w)
  | None => None
  end.

(** Modelled from the spec: the destructor of an object drops the
    references the object holds, one field after the other. *)
Fixpoint unref_each (unref : Z -> gmap Z SkRefCnt -> option (gmap Z SkRefCnt))
    (l : list Z) (h : gmap Z SkRefCnt) : option (gmap Z SkRefCnt) :=
  match l with
  | [] => Some h
  | c :: l => match unref c h with Some h' => unref_each unref l h' | None => None end
  end.

(** Modelled from the spec: [SkRefCnt::unref()], "refcount decremented; node
    freed when it reaches zero".  The last reference deletes the object and
    runs its destructor.  The recursion is on a fuel; [SkRefCnt_unref] gives
    it one more than the number of objects, which is enough
    ([unref_consistent]). *)
Fixpoint unref_fuel (n : nat) (p : ptr) (h : gmap Z SkRefCnt) : option (gmap Z SkRefCnt) :=
  match n with
  | O => None
  | S n =>
    match h !! p with
    | None => None
    | Some o =>
      if Pos.eqb (fRefCnt o) 1 then
        unref_each (unref_fuel n) (sk_sp_fields (object o)) (delete p h)
      else Some (<[p := with_refcnt (Pos.pred (fRefCnt o)) o]> h)
    end
  end.

Definition SkRefCnt_unref (p : ptr) : M unit := λ w,
  match unref_fuel (S (size (heap w))) p (heap w) with
  | Some h' => Some (tt, set_heap h' w)
  | None => None
  end.

(** Modelled from the spec: [SkSafeRef] and [SkSafeUnref], the null-checked
    forms ("input may be absent"). *)
Definition SkSafeRef (p : ptr) : M ptr :=
  if decide (p = nullptr) then ret p else do* SkRefCnt_ref p in ret p.

Definition SkSafeUnref (p : ptr) : M unit :=
  if decide (p = nullptr) then ret tt else SkRefCnt_unref p.

(** Modelled from the spec: [sk_ref_sp(p)] makes a new [sk_sp] sharing [p];
    the destructor of an [sk_sp] drops its reference; [sk_sp::release()]
    gives the pointer up without touching the count ("refcount = 1 relative
    to the returned handle"). *)
Definition sk_ref_sp (p : ptr) : M ptr := SkSafeRef p.
Definition sk_sp_destroy (p : ptr) : M unit := SkSafeUnref p.
Definition release (p : ptr) : ptr := p.

(** ** The factories of [SkImageFilters] *)

(** A new object: one reference, the one its creator holds. *)
Definition fresh_object (o : SkObject) : SkRefCnt :=
  {| fRefCnt := 1%positive; object := o |}.

(** Modelled from the spec: a factory of the library.  It receives its
    [sk_sp] arguments by value.  When it builds the node ("a brand-new
    handle owning a new node whose internal graph retains references to the
    inputs"), the node keeps them; when it "cannot construct a node" they are
    destroyed on return and the result is "a null reference". *)
Definition sk_make (o : SkObject) : M ptr := λ w,
  if sk_accepts o then
    let p := sk_new (dom (heap w)) in
    Some (p, set_heap (<[p := fresh_object o]> (heap w)) w)
  else (do* for_each sk_sp_destroy (sk_sp_fields o) in ret nullptr) w.

Definition SkImageFilters_Offset (dx dy : jfloat) (input : ptr) : M ptr :=
  sk_make (SkOffsetImageFilter dx dy input).
Definition SkImageFilters_Blur (sigmaX sigmaY : jfloat) (tileMode : SkTileMode) (input : ptr) : M ptr :=
  sk_make (SkBlurImageFilter sigmaX sigmaY tileMode input).
Definition SkImageFilters_Image (img : ptr) (srcRect dstRect : SkRect) (q : SkFilterQuality) : M ptr :=
  sk_make (SkImageImageFilter img srcRect dstRect q).
Definition SkImageFilters_ColorFilter (cf input : ptr) : M ptr :=
  sk_make (SkColorFilterImageFilter cf input).
Definition SkImageFilters_Blend (mode : SkBlendMode) (background foreground : ptr) : M ptr :=
  sk_make (SkBlendImageFilter mode background foreground).
Definition SkImageFilters_Compose (outer inner : ptr) : M ptr :=
  sk_make (SkComposeImageFilter outer inner).

(** Modelled from the spec: [android::bitmap::toBitmap] of libs/hwui (not
    part of the file); undefined on a handle that denotes no bitmap. *)
Definition toBitmap (bitmapHandle : jlong) : M image := λ w,
  match bitmaps w !! bitmapHandle with
  | Some px => Some (px, w)
  | None => None
  end.

(** Modelled from the spec: [Bitmap::makeImage] of libs/hwui (not part of
    the file).  "Takes a snapshot of the bitmap's current pixel contents at
    call time": the image is a new object that holds a copy of the pixels. *)
Definition makeImage (px : image) : M ptr := λ w,
  let p := sk_new (dom (heap w)) in
  Some (p, set_heap (<[p := fresh_object (SkImage px)]> (heap w)) w).

(** ** The entry points of RenderEffect.cpp

    One binding per statement of the source.  What C++ does without a
    statement is written out: [sk_ref_sp(p)] as an argument is a temporary
    [sk_sp] that is moved into the factory (the order in which two such
    arguments are evaluated is unspecified; the two orders give the same
    heap, [acquire_all_cons_comm]); passing the local [image] by value copies
    it (one more reference), and the local is destroyed when the function
    returns, after the result was computed.  The [JNIEnv*] and [jobject]
    parameters are unused. *)

Definition createOffsetEffect (offsetX offsetY : jfloat) (inputFilterHandle : jlong) : M jlong :=
  let inputFilter := reinterpret_cast inputFilterHandle in
  let* arg := sk_ref_sp inputFilter in
  let* offset := SkImageFilters_Offset offsetX offsetY arg in
  ret (reinterpret_cast (release offset)).

Definition createBlurEffect (radiusX radiusY : jfloat) (inputFilterHandle : jlong)
    (edgeTreatment : jint) : M jlong :=
  let inputImageFilter := reinterpret_cast inputFilterHandle in
  let* arg := sk_ref_sp inputImageFilter in
  let* blurFilter := SkImageFilters_Blur
                  (convertRadiusToSigma radiusX)
                  (convertRadiusToSigma radiusY)
                  (SkTileMode_of edgeTreatment)
                  arg in
  ret (reinterpret_cast (release blurFilter)).

Definition createBitmapEffect (bitmapHandle : jlong)
    (srcLeft srcTop srcRight srcBottom dstLeft dstTop dstRight dstBottom : jfloat) : M jlong :=
  let* bitmap := toBitmap bitmapHandle in
  let* image := makeImage bitmap in
  let srcRect := MakeLTRB srcLeft srcTop srcRight srcBottom in
  let dstRect := MakeLTRB dstLeft dstTop dstRight dstBottom in
  let* arg := sk_ref_sp image in                     (* the copy passed by value *)
  let* bitmapFilter := SkImageFilters_Image arg srcRect dstRect kLow_SkFilterQuality in
  let result := reinterpret_cast (release bitmapFilter) in
  do* sk_sp_destroy image in                         (* the local goes out of scope *)
  ret result.

Definition createColorFilterEffect (colorFilterHandle inputFilterHandle : jlong) : M jlong :=
  let colorFilter := reinterpret_cast colorFilterHandle in
  let inputFilter := reinterpret_cast inputFilterHandle in
  let* arg1 := sk_ref_sp colorFilter in
  let* arg2 := sk_ref_sp inputFilter in
  let* colorFilterImageFilter := SkImageFilters_ColorFilter arg1 arg2 in
  ret (reinterpret_cast (release colorFilterImageFilter)).

Definition createBlendModeEffect (backgroundImageFilterHandle foregroundImageFilterHandle : jlong)
    (blendmodeHandle : jint) : M jlong :=
  let backgroundFilter := reinterpret_cast backgroundImageFilterHandle in
  let foregroundFilter := reinterpret_cast foregroundImageFilterHandle in
  let blendMode := SkBlendMode_of blendmodeHandle in
  let* arg1 := sk_ref_sp backgroundFilter in
  let* arg2 := sk_ref_sp foregroundFilter in
  let* xfermodeFilter := SkImageFilters_Blend blendMode arg1 arg2 in
  ret (reinterpret_cast (release xfermodeFilter)).

Definition createChainEffect (outerFilterHandle innerFilterHandle : jlong) : M jlong :=
  let outerImageFilter := reinterpret_cast outerFilterHandle in
  let innerImageFilter := reinterpret_cast innerFilterHandle in
  let* arg1 := sk_ref_sp outerImageFilter in
  let* arg2 := sk_ref_sp innerImageFilter in
  let* composeFilter := SkImageFilters_Compose arg1 arg2 in
  ret (reinterpret_cast (release composeFilter)).

Definition RenderEffect_safeUnref (filter : ptr) : M unit :=
  SkSafeUnref filter.

(** [getRenderEffectFinalizer] returns the address of
    [RenderEffect_safeUnref] (here: the function); the managed runtime calls
    what it got with a handle when the wrapping object is collected. *)
Definition getRenderEffectFinalizer : ptr -> M unit := RenderEffect_safeUnref.

Definition finalizer (handle : jlong) : M unit :=
  getRenderEffectFinalizer (reinterpret_cast handle).

(** The factory rows of [gRenderEffectMethods], with their arguments. *)
Inductive factory_call :=
  | nativeCreateOffsetEffect (offsetX offsetY : jfloat) (input : jlong)
  | nativeCreateBlurEffect (radiusX radiusY : jfloat) (input : jlong) (edgeTreatment : jint)
  | nativeCreateBitmapEffect (bitmap : jlong) (srcRect dstRect : SkRect)
  | nativeCreateColorFilterEffect (colorFilter input : jlong)
  | nativeCreateBlendModeEffect (background foreground : jlong) (blendmode : jint)
  | nativeCreateChainEffect (outer inner : jlong).

Definition invoke (c : factory_call) : M jlong :=
  match c with
  | nativeCreateOffsetEffect dx dy input => createOffsetEffect dx dy input
  | nativeCreateBlurEffect rx ry input e => createBlurEffect rx ry input e
  | nativeCreateBitmapEffect b s d =>
      createBitmapEffect b (fLeft s) (fTop s) (fRight s) (fBottom s)
                           (fLeft d) (fTop d) (fRight d) (fBottom d)
  | nativeCreateColorFilterEffect cf input => createColorFilterEffect cf input
  | nativeCreateBlendModeEffect bg fg m => createBlendModeEffect bg fg m
  | nativeCreateChainEffect outer inner => createChainEffect outer inner
  end.

(** The filter handles a call passes, in argument order. *)
Definition input_handles (c : factory_call) : list Z :=
  match c with
  | nativeCreateOffsetEffect _ _ input => [input]
  | nativeCreateBlurEffect _ _ input _ => [input]
  | nativeCreateBitmapEffect _ _ _ => []
  | nativeCreateColorFilterEffect cf input => [cf; input]
  | nativeCreateBlendModeEffect bg fg _ => [bg; fg]
  | nativeCreateChainEffect outer inner => [outer; inner]
  end.

(** The node a call asks the library for ([None]: the image node of the
    bitmap effect, whose image is allocated during the call). *)
Definition requested (c : factory_call) : option SkObject :=
  match c with
  | nativeCreateOffsetEffect dx dy input => Some (SkOffsetImageFilter dx dy input)
  | nativeCreateBlurEffect rx ry input e =>
      Some (SkBlurImageFilter (convertRadiusToSigma rx) (convertRadiusToSigma ry)
                              (SkTileMode_of e) input)
  | nativeCreateBitmapEffect _ _ _ => None
  | nativeCreateColorFilterEffect cf input => Some (SkColorFilterImageFilter cf input)
  | nativeCreateBlendModeEffect bg fg m => Some (SkBlendImageFilter (SkBlendMode_of m) bg fg)
  | nativeCreateChainEffect outer inner => Some (SkComposeImageFilter outer inner)
  end.

(** ** Evaluation of a filter graph *)

(** Modelled from the spec: the library's evaluation of a filter graph on a
    source image.  An absent input is the source image ("no-op
    passthrough"), a compose node applies "inner's effect, then outer's", a
    blend node "composites foreground over background", an image node draws
    its image.  The fuel bounds the depth of the graph; [None] is a dangling
    pointer, an object of the wrong class, or not enough fuel. *)
Fixpoint filterImage (n : nat) (h : gmap Z SkRefCnt) (p : ptr) (src : image) : option image :=
  if decide (p = nullptr) then Some src else
  match n with
  | O => None
  | S n =>
    match h !! p with
    | None => None
    | Some o =>
      match object o with
      | SkImage _ | SkColorFilter _ => None
      | SkOffsetImageFilter dx dy input =>
          raster_offset dx dy <$> filterImage n h input src
      | SkBlurImageFilter sx sy tm input =>
          raster_blur sx sy tm <$> filterImage n h input src
      | SkImageImageFilter img s d q =>
          match object <$> h !! img with
          | Some (SkImage px) => Some (raster_image px s d q)
          | _ => None
          end
      | SkColorFilterImageFilter cf input =>
          match filterImage n h input src with
          | None => None
          | Some r =>
            if decide (cf = nullptr) then Some r else
            match object <$> h !! cf with
            | Some (SkColorFilter c) => Some (raster_color c r)
            | _ => None
            end
          end
      | SkBlendImageFilter m bg fg =>
          match filterImage n h bg src, filterImage n h fg src with
          | Some a, Some b => Some (raster_blend m a b)
          | _, _ => None
          end
      | SkComposeImageFilter outer inner =>
          match filterImage n h inner src with
          | Some r => filterImage n h outer r
          | None => None
          end
      end
    end
  end.

(** ** Consistency of the heap with the references that exist

    [owners] is the multiset of references held outside the heap: the handles
    the managed side owns, and the [sk_sp] locals of a call in progress.  A
    heap is consistent with it when every count is the number of references
    to the object, every reference points to a live object, and nothing lives
    at the null address. *)
Definition held (o : SkRefCnt) : gmultiset Z :=
  list_to_set_disj (sk_sp_fields (object o)).

Definition refs_of (h : gmap Z SkRefCnt) : gmultiset Z :=
  map_fold (λ _ ob acc, list_to_set_disj (sk_sp_fields ob) ⊎ acc) ∅ (object <$> h).

Record consistent (h : gmap Z SkRefCnt) (owners : gmultiset Z) : Prop := {
  cons_count : forall p o, h !! p = Some o ->
    Pos.to_nat (fRefCnt o) = (multiplicity p owners + multiplicity p (refs_of h))%nat;
  cons_live : forall p, p ∈ owners ⊎ refs_of h -> is_Some (h !! p);
  cons_nonnull : h !! nullptr = None
}.

(** No dangling pointer: nothing lives at the null address and every
    reference held by an object points to an object. *)
Definition closed (h : gmap Z SkRefCnt) : Prop :=
  h !! nullptr = None /\
  forall q o c, h !! q = Some o -> c ∈ sk_sp_fields (object o) -> is_Some (h !! c).

(** A handle argument is live when it is 0 or the address of an object. *)
Definition live (h : gmap Z SkRefCnt) (handle : jlong) : Prop :=
  handle = 0 \/ is_Some (h !! handle).

(** A handle argument is usable when it is 0 or a reference the caller
    owns. *)
Definition usable (owners : gmultiset Z) (handle : jlong) : Prop :=
  handle = 0 \/ handle ∈ owners.

(** Same objects, whatever the counts: what a holder of a handle can
    observe of the heap. *)
Definition same_objects (h h' : gmap Z SkRefCnt) (p : ptr) : Prop :=
  object <$> h' !! p = object <$> h !! p.

(** Every object of [h'] is an object of [h], counts apart. *)
Definition survives (h h' : gmap Z SkRefCnt) : Prop :=
  forall q, is_Some (h' !! q) -> same_objects h h' q.

(** One reference to [p] was dropped: the count went down by one, and the
    object is gone when that was the last reference. *)
Definition released_once (p : ptr) (h h' : gmap Z SkRefCnt) : Prop :=
  exists o, h !! p = Some o /\
    if Pos.eqb (fRefCnt o) 1 then h' !! p = None
    else h' = <[p := with_refcnt (Pos.pred (fRefCnt o)) o]> h.

(** The heap after one more reference to [p], and after one more reference
    to each address of a list. *)
Definition acquire (p : ptr) (h : gmap Z SkRefCnt) : gmap Z SkRefCnt :=
  match h !! p with
  | Some o => <[p := with_refcnt (Pos.succ (fRefCnt o)) o]> h
  | None => h
  end.

Definition acquire_all (l : list Z) (h : gmap Z SkRefCnt) : gmap Z SkRefCnt :=
  foldr acquire h l.

Definition add_refs (k : nat) (o : SkRefCnt) : SkRefCnt :=
  with_refcnt (Nat.iter k Pos.succ (fRefCnt o)) o.

(** What a factory call does, in closed form ([invoke_outcome] below).
    [staged] is the heap the node is added to and the node asked for: the
    inputs have one more reference each (the bitmap effect has no input; its
    image is a new object).  The library then either builds the node at a
    new address, or returns null and the heap is as before. *)
Definition staged (c : factory_call) (w : world) : option (gmap Z SkRefCnt * SkObject) :=
  match c with
  | nativeCreateBitmapEffect b s d =>
      match bitmaps w !! b with
      | None => None
      | Some px =>
        let pi := sk_new (dom (heap w)) in
        Some (<[pi := fresh_object (SkImage px)]> (heap w),
              SkImageImageFilter pi s d kLow_SkFilterQuality)
      end
  | _ =>
      match requested c with
      | None => None
      | Some o => Some (acquire_all (filter (λ p, p ≠ nullptr) (input_handles c)) (heap w), o)
      end
  end.

Definition outcome (c : factory_call) (w : world) : option (jlong * world) :=
  match staged c w with
  | None => None
  | Some (H, o) =>
      if sk_accepts o
      then Some (sk_new (dom H), set_heap (<[sk_new (dom H) := fresh_object o]> H) w)
      else Some (0, w)
  end.

(** The inputs of a call are acceptable to the library. *)
Definition accepted (c : factory_call) (w : world) : Prop :=
  exists H o, staged c w = Some (H, o) /\ sk_accepts o = true.

(** The reference a returned handle stands for: none for the null handle. *)
Definition owned (handle : jlong) : gmultiset Z :=
  if decide (handle = 0) then ∅ else {[+ handle +]}.

(** How often a call passes the address [q] as an input. *)
Definition uses (c : factory_call) (q : ptr) : nat :=
  length (filter (λ x, x = q) (filter (λ p, p ≠ nullptr) (input_handles c))).

(** Modelled from the spec: a later write to the pixels of a bitmap (done
    by the managed side through other entry points). *)
Definition set_pixels (b : jlong) (px : image) (w : world) : world :=
  {| heap := heap w; bitmaps := <[b := px]> (bitmaps w) |}.

Definition mutate (writes : list (Z * image)) (w : world) : world :=
  foldl (λ w bp, set_pixels bp.1 bp.2 w) w writes.

(** The two sigmas of a blur node. *)
Definition blur_sigmas (h : gmap Z SkRefCnt) (p : ptr) : option (jfloat * jfloat) :=
  match object <$> h !! p with
  | Some (SkBlurImageFilter sigmaX sigmaY _ _) => Some (sigmaX, sigmaY)
  | _ => None
  end.

(** What the managed side may do, with the handles it owns: call a factory
    on handles it owns (or 0) and keep the result, let the finalizer run on
    a handle it owns (giving it up), write to a bitmap. *)
Inductive step : world * gmultiset Z -> world * gmultiset Z -> Prop :=
  | step_invoke w O c handle w' :
      Forall (usable O) (input_handles c) ->
      invoke c w = Some (handle, w') ->
      step (w, O) (w', O ⊎ owned handle)
  | step_finalize w O handle w' :
      finalizer handle w = Some (tt, w') ->
      step (w, O ⊎ {[+ handle +]}) (w', O)
  | step_pixels w O b px :
      step (w, O) (set_pixels b px w, O).

(** * Properties *)

(** ** The references held by the heap *)

Lemma refs_of_empty : refs_of ∅ = ∅.
Proof. unfold refs_of. rewrite fmap_empty. apply map_fold_empty. Qed.

Lemma refs_of_insert_fresh h p o :
  h !! p = None -> refs_of (<[p := o]> h) = held o ⊎ refs_of h.
Proof.
  intros Hp. unfold refs_of, held. rewrite fmap_insert.
  apply (map_fold_insert_L (λ _ ob acc, list_to_set_disj (sk_sp_fields ob) ⊎ acc)).
  - intros. multiset_solver.
  - by rewrite lookup_fmap, Hp.
Qed.

Lemma refs_of_delete h p o :
  h !! p = Some o -> refs_of h = held o ⊎ refs_of (delete p h).
Proof.
  intros Hp. unfold refs_of, held. rewrite fmap_delete.
  apply (map_fold_delete_L (λ _ ob acc, list_to_set_disj (sk_sp_fields ob) ⊎ acc)).
  - intros. multiset_solver.
  - by rewrite lookup_fmap, Hp.
Qed.

Lemma refs_of_same_objects h h' :
  (forall q, same_objects h h' q) -> refs_of h' = refs_of h.
Proof.
  intros Hq. unfold refs_of. f_equal. apply map_eq. intros q.
  rewrite !lookup_fmap. apply Hq.
Qed.

Lemma held_in_refs h p o c :
  h !! p = Some o -> c ∈ sk_sp_fields (object o) -> c ∈ refs_of h.
Proof.
  intros Hp Hc. rewrite (refs_of_delete h p o Hp).
  apply gmultiset_elem_of_disj_union. left.
  unfold held. by apply elem_of_list_to_set_disj.
Qed.

(** ** Taking and dropping references *)

Arguments unref_fuel : simpl never.
Arguments acquire : simpl never.
Arguments acquire_all : simpl never.

Lemma with_refcnt_id o : with_refcnt (fRefCnt o) o = o.
Proof. by destruct o. Qed.

Lemma lookup_acquire p h q :
  acquire p h !! q = (if decide (p = q) then add_refs 1 else id) <$> h !! q.
Proof.
  unfold acquire. destruct (h !! p) as [o|] eqn:Hp.
  - case_decide as Hpq.
    + subst q. by rewrite lookup_insert_eq, Hp.
    + rewrite lookup_insert_ne by done. by destruct (h !! q).
  - case_decide as Hpq.
    + subst q. by rewrite Hp.
    + by destruct (h !! q).
Qed.

Lemma add_refs_add j k o : add_refs j (add_refs k o) = add_refs (j + k) o.
Proof. unfold add_refs, with_refcnt. cbn. by rewrite Nat.iter_add. Qed.

Lemma add_refs_count k o : Pos.to_nat (fRefCnt (add_refs k o)) = (Pos.to_nat (fRefCnt o) + k)%nat.
Proof.
  unfold add_refs, with_refcnt. cbn.
  induction k as [|k IH]; [cbn; lia|].
  change (Nat.iter (S k) Pos.succ (fRefCnt o)) with (Pos.succ (Nat.iter k Pos.succ (fRefCnt o))).
  rewrite Pos2Nat.inj_succ. lia.
Qed.

Lemma lookup_acquire_all l h q :
  acquire_all l h !! q = add_refs (multiplicity q (list_to_set_disj l)) <$> h !! q.
Proof.
  induction l as [|c l IH].
  - change (acquire_all [] h) with h.
    rewrite list_to_set_disj_nil, multiplicity_empty.
    destruct (h !! q) as [o|]; [|done].
    cbn. unfold add_refs. cbn. by rewrite with_refcnt_id.
  - change (acquire_all (c :: l) h) with (acquire c (acquire_all l h)).
    rewrite list_to_set_disj_cons, lookup_acquire, IH, multiplicity_disj_union.
    destruct (h !! q) as [o|]; [|done]. cbn. case_decide as Hcq.
    + subst c. by rewrite multiplicity_singleton_eq, add_refs_add.
    + by rewrite multiplicity_singleton_ne.
Qed.

Lemma acquire_all_objects l h q : same_objects h (acquire_all l h) q.
Proof.
  unfold same_objects. rewrite lookup_acquire_all. by destruct (h !! q).
Qed.

Lemma acquire_all_cons_comm c l h :
  acquire_all l (acquire c h) = acquire c (acquire_all l h).
Proof.
  apply map_eq. intros q.
  rewrite lookup_acquire, !lookup_acquire_all, lookup_acquire.
  destruct (h !! q) as [o|]; [|done]. cbn. f_equal.
  case_decide; [|done]. rewrite !add_refs_add. f_equal. lia.
Qed.

Lemma ref_acquire p w :
  is_Some (heap w !! p) ->
  SkRefCnt_ref p w = Some (tt, set_heap (acquire p (heap w)) w).
Proof.
  intros [o Ho]. unfold SkRefCnt_ref, acquire. by rewrite Ho.
Qed.

Lemma for_each_ref_acquire l w :
  Forall (λ p, is_Some (heap w !! p)) l ->
  for_each SkRefCnt_ref l w = Some (tt, set_heap (acquire_all l (heap w)) w).
Proof.
  revert w. induction l as [|c l IH]; intros w Hl.
  - cbn. unfold ret, set_heap. by destruct w.
  - inversion Hl as [|? ? Hc Hl']; subst. cbn. unfold bind.
    rewrite ref_acquire by done. rewrite IH.
    + cbn. by rewrite acquire_all_cons_comm.
    + cbn. eapply Forall_impl; [exact Hl'|]. intros q [o Ho].
      rewrite lookup_acquire, Ho. by eexists.
Qed.

Lemma unref_fuel_S n p h :
  unref_fuel (S n) p h =
  match h !! p with
  | None => None
  | Some o =>
    if Pos.eqb (fRefCnt o) 1 then
      unref_each (unref_fuel n) (sk_sp_fields (object o)) (delete p h)
    else Some (<[p := with_refcnt (Pos.pred (fRefCnt o)) o]> h)
  end.
Proof. reflexivity. Qed.

(** Dropping a reference that is not the last one is one decrement. *)
Lemma unref_shared n p h o :
  h !! p = Some o -> fRefCnt o <> 1%positive ->
  unref_fuel (S n) p h = Some (<[p := with_refcnt (Pos.pred (fRefCnt o)) o]> h).
Proof.
  intros Ho Hrc. rewrite unref_fuel_S, Ho.
  by destruct (Pos.eqb_spec (fRefCnt o) 1).
Qed.

Lemma unref_acquire n p h :
  is_Some (h !! p) -> unref_fuel (S n) p (acquire p h) = Some h.
Proof.
  intros [o Ho].
  rewrite (unref_shared n p _ (add_refs 1 o)).
  - f_equal. unfold acquire. rewrite Ho. cbn. rewrite Pos.pred_succ.
    rewrite insert_insert_eq. apply insert_id.
    rewrite Ho. f_equal. by destruct o.
  - by rewrite lookup_acquire, Ho, decide_True.
  - cbn. lia.
Qed.

Lemma destroy_acquire c h w :
  c <> nullptr -> is_Some (h !! c) ->
  sk_sp_destroy c (set_heap (acquire c h) w) = Some (tt, set_heap h w).
Proof.
  intros Hc0 Hc. unfold sk_sp_destroy, SkSafeUnref.
  rewrite decide_False by done. unfold SkRefCnt_unref.
  change (heap (set_heap (acquire c h) w)) with (acquire c h).
  by rewrite unref_acquire.
Qed.

Lemma for_each_destroy_acquire l h w :
  Forall (λ p, p <> nullptr /\ is_Some (h !! p)) l ->
  for_each sk_sp_destroy l (set_heap (acquire_all l h) w) = Some (tt, set_heap h w).
Proof.
  induction l as [|c l IH]; intros Hl; [done|].
  inversion Hl as [|? ? [Hc0 Hc] Hl']; subst.
  change (acquire_all (c :: l) h) with (acquire c (acquire_all l h)).
  change (for_each sk_sp_destroy (c :: l)) with
    (bind (sk_sp_destroy c) (λ _, for_each sk_sp_destroy l)).
  unfold bind. rewrite destroy_acquire; [by apply IH|done|].
  destruct Hc as [o Ho]. rewrite lookup_acquire_all, Ho. by eexists.
Qed.

(** ** The factory calls in closed form *)

Lemma set_heap_id w : set_heap (heap w) w = w.
Proof. by destruct w. Qed.

Lemma set_heap_set_heap h h' w : set_heap h (set_heap h' w) = set_heap h w.
Proof. done. Qed.

Lemma dom_acquire_all l h : dom (acquire_all l h) = dom h.
Proof.
  apply set_eq. intros q. rewrite !elem_of_dom, lookup_acquire_all.
  by rewrite fmap_is_Some.
Qed.

Lemma live_fields h l :
  Forall (live h) l ->
  Forall (λ p, p <> nullptr /\ is_Some (h !! p)) (filter (λ p, p ≠ nullptr) l).
Proof.
  intros Hl. apply Forall_forall. intros p [Hp Hin]%list_elem_of_filter.
  split; [done|]. rewrite Forall_forall in Hl. destruct (Hl p Hin); done.
Qed.

Lemma acquire_make o w :
  Forall (λ p, p <> nullptr /\ is_Some (heap w !! p)) (sk_sp_fields o) ->
  (do* for_each SkRefCnt_ref (sk_sp_fields o) in sk_make o) w =
  if sk_accepts o
  then Some (sk_new (dom (heap w)),
             set_heap (<[sk_new (dom (heap w)) := fresh_object o]>
                         (acquire_all (sk_sp_fields o) (heap w))) w)
  else Some (nullptr, w).
Proof.
  intros Hl. unfold bind. rewrite for_each_ref_acquire.
  2:{ eapply Forall_impl; [exact Hl|]. by intros ? [_ ?]. }
  unfold sk_make. destruct (sk_accepts o).
  - cbn. by rewrite dom_acquire_all.
  - unfold bind. rewrite for_each_destroy_acquire by done.
    unfold ret. by rewrite set_heap_id.
Qed.

Lemma sk_ref_sp_null w : sk_ref_sp nullptr w = Some (nullptr, w).
Proof. done. Qed.

Lemma sk_ref_sp_nonnull p w :
  p <> nullptr ->
  sk_ref_sp p w = match SkRefCnt_ref p w with Some (_, w') => Some (p, w') | None => None end.
Proof.
  intros Hp. unfold sk_ref_sp, SkSafeRef. rewrite decide_False by done.
  unfold bind, ret. by destruct (SkRefCnt_ref p w) as [[[] ?]|].
Qed.

Lemma invoke_acquire_make c o w :
  requested c = Some o ->
  sk_sp_fields o = filter (λ p, p ≠ nullptr) (input_handles c) /\
  invoke c w = (do* for_each SkRefCnt_ref (sk_sp_fields o) in sk_make o) w.
Proof.
  intros Hc. destruct c; inversion Hc; subst; clear Hc; (split; [done|]); cbn [invoke].
  all: unfold createOffsetEffect, createBlurEffect, createColorFilterEffect,
         createBlendModeEffect, createChainEffect, reinterpret_cast, release,
         SkImageFilters_Offset, SkImageFilters_Blur, SkImageFilters_ColorFilter,
         SkImageFilters_Blend, SkImageFilters_Compose, sk_sp_fields.
  all: repeat match goal with
       | |- context [filter _ (?a :: _)] =>
           rewrite (filter_cons _ a); destruct (decide (a ≠ nullptr)) as [?|?%dec_stable]
       | |- context [filter _ []] => rewrite filter_nil
       end; subst; cbn [for_each]; unfold bind, ret.
  all: repeat match goal with
       | |- context [sk_ref_sp nullptr ?w] => rewrite (sk_ref_sp_null w)
       | |- context [sk_ref_sp ?a ?w] => rewrite (sk_ref_sp_nonnull a w) by done
       | |- context [SkRefCnt_ref ?a ?w] =>
           destruct (SkRefCnt_ref a w) as [[[] ?]|]; [|done]
       end.
  all: match goal with
       | |- context [sk_make ?o ?w] => by destruct (sk_make o w) as [[? ?]|]
       end.
Qed.

Lemma sk_new_lookup (h : gmap Z SkRefCnt) : h !! sk_new (dom h) = None.
Proof. apply not_elem_of_dom, sk_new_fresh. Qed.

Lemma rect_eta s : MakeLTRB (fLeft s) (fTop s) (fRight s) (fBottom s) = s.
Proof. by destruct s. Qed.

Lemma bitmap_outcome b s d w :
  invoke (nativeCreateBitmapEffect b s d) w = outcome (nativeCreateBitmapEffect b s d) w.
Proof.
  unfold outcome. cbn [invoke staged]. unfold createBitmapEffect. rewrite !rect_eta.
  unfold bind at 1. unfold toBitmap.
  destruct (bitmaps w !! b) as [px|]; [|done].
  unfold bind at 1. unfold makeImage.
  set (h := heap w). set (pi := sk_new (dom h)).
  set (h1 := <[pi := fresh_object (SkImage px)]> h).
  assert (Hpi0 : pi <> nullptr) by apply sk_new_nonnull.
  assert (Hpi : h !! pi = None) by apply sk_new_lookup.
  assert (Hh1 : h1 !! pi = Some (fresh_object (SkImage px))) by apply lookup_insert_eq.
  unfold bind at 1. rewrite sk_ref_sp_nonnull by done.
  rewrite ref_acquire by (cbn; by rewrite Hh1).
  change (heap (set_heap h1 w)) with h1.
  unfold bind at 1. unfold SkImageFilters_Image, sk_make.
  change (heap (set_heap (acquire pi h1) (set_heap h1 w))) with (acquire pi h1).
  set (o := SkImageImageFilter pi s d kLow_SkFilterQuality).
  assert (Hfields : sk_sp_fields o = [pi]).
  { unfold sk_sp_fields, o. rewrite filter_cons, decide_True by done. done. }
  assert (Hdom : dom (acquire pi h1) = dom h1).
  { change (acquire pi h1) with (acquire_all [pi] h1). apply dom_acquire_all. }
  destruct (sk_accepts o).
  - rewrite Hdom. set (p := sk_new (dom h1)).
    assert (Hp : p <> pi).
    { pose proof (sk_new_lookup h1) as Hf. fold p in Hf. intros Heq.
      rewrite Heq, Hh1 in Hf. done. }
    unfold reinterpret_cast, release, bind, ret, sk_sp_destroy, SkSafeUnref.
    rewrite decide_False by done. unfold SkRefCnt_unref. cbn [heap set_heap].
    rewrite (unref_shared _ pi _ (add_refs 1 (fresh_object (SkImage px)))).
    + rewrite !set_heap_set_heap. do 3 f_equal.
      unfold acquire. rewrite Hh1.
      apply map_eq. intros q.
      destruct (decide (q = p)) as [->|Hqp].
      { by rewrite lookup_insert_ne, !lookup_insert_eq by done. }
      destruct (decide (q = pi)) as [->|Hqpi].
      { by rewrite lookup_insert_eq, lookup_insert_ne, Hh1 by done. }
      by rewrite !lookup_insert_ne by done.
    + rewrite lookup_insert_ne by done. by rewrite lookup_acquire, Hh1, decide_True.
    + done.
  - rewrite Hfields.
    pose proof (for_each_destroy_acquire [pi] h1 (set_heap h1 w)) as Hd.
    change (acquire_all [pi] h1) with (acquire pi h1) in Hd.
    rewrite set_heap_set_heap in Hd |- *.
    unfold bind at 1. unfold bind at 1.
    rewrite Hd by (repeat constructor; [done|by rewrite Hh1]).
    unfold reinterpret_cast, release, bind, ret, sk_sp_destroy, SkSafeUnref.
    rewrite decide_False by done. unfold SkRefCnt_unref. cbn [heap set_heap].
    rewrite unref_fuel_S, Hh1. cbn.
    unfold h1. rewrite delete_insert_id by done. by destruct w.
Qed.

Lemma invoke_outcome c w :
  Forall (live (heap w)) (input_handles c) -> invoke c w = outcome c w.
Proof.
  intros Hl. destruct (requested c) as [o|] eqn:Hc.
  - destruct (invoke_acquire_make c o w Hc) as [Hf ->].
    rewrite acquire_make by (rewrite Hf; by apply live_fields).
    rewrite Hf. unfold outcome.
    destruct c; try done; cbn [staged]; rewrite Hc, dom_acquire_all; done.
  - destruct c; try done. apply bitmap_outcome.
Qed.

Lemma outcome_inv c w j w' :
  outcome c w = Some (j, w') ->
  exists H o, staged c w = Some (H, o) /\
    if sk_accepts o
    then j = sk_new (dom H) /\ j <> 0 /\ H !! j = None /\
         w' = set_heap (<[j := fresh_object o]> H) w
    else j = 0 /\ w' = w.
Proof.
  unfold outcome. destruct (staged c w) as [[H o]|]; [|done].
  intros Hout. exists H, o. split; [done|].
  destruct (sk_accepts o); injection Hout as <- <-; [|done].
  split_and!; [done|apply sk_new_nonnull|apply sk_new_lookup|done].
Qed.

Lemma add_refs_0 o : add_refs 0 o = o.
Proof. by destruct o. Qed.

Lemma multiplicity_filter_eq (l : list Z) q :
  multiplicity q (list_to_set_disj l) = length (filter (λ x, x = q) l).
Proof.
  induction l as [|a l IH]; [done|].
  rewrite list_to_set_disj_cons, multiplicity_disj_union, filter_cons, IH.
  destruct (decide (a = q)) as [->|Ha].
  - by rewrite multiplicity_singleton_eq.
  - by rewrite multiplicity_singleton_ne.
Qed.

(** The staged heap: the objects of the heap, each with one more reference
    per use as an input; the fields of the node asked for are live in it. *)
Lemma staged_lookup c w H o q og :
  staged c w = Some (H, o) -> heap w !! q = Some og ->
  H !! q = Some (add_refs (uses c q) og).
Proof.
  intros Hst Hq. unfold uses. rewrite <- multiplicity_filter_eq.
  destruct c; cbn [staged requested] in Hst.
  3:{ destruct (bitmaps w !! bitmap); [|done]. injection Hst as <- <-.
      cbn [input_handles]. rewrite filter_nil, list_to_set_disj_nil, multiplicity_empty.
      rewrite add_refs_0. rewrite lookup_insert_ne; [done|].
      intros Heq. rewrite <- Heq, sk_new_lookup in Hq. done. }
  all: injection Hst as <- <-; by rewrite lookup_acquire_all, Hq.
Qed.

Lemma staged_fields c w H o :
  staged c w = Some (H, o) -> Forall (live (heap w)) (input_handles c) ->
  Forall (λ f, f <> nullptr /\ is_Some (H !! f)) (sk_sp_fields o).
Proof.
  intros Hst Hl.
  assert (Hgen : forall l, Forall (live (heap w)) l ->
    Forall (λ f, f <> nullptr /\
                 is_Some (acquire_all (filter (λ p, p ≠ nullptr) (input_handles c)) (heap w) !! f))
           (filter (λ p, p ≠ nullptr) l)).
  { intros l Hlive. eapply Forall_impl; [apply (live_fields _ _ Hlive)|].
    intros f [Hf0 Hf]. split; [done|]. by rewrite lookup_acquire_all, fmap_is_Some. }
  destruct c; cbn [staged requested] in Hst.
  3:{ destruct (bitmaps w !! bitmap); [|done]. injection Hst as <- <-.
      unfold sk_sp_fields. rewrite filter_cons, decide_True by apply sk_new_nonnull.
      repeat constructor; [apply sk_new_nonnull|by rewrite lookup_insert_eq]. }
  all: injection Hst as <- <-; by apply Hgen.
Qed.

Lemma staged_null c w H o :
  staged c w = Some (H, o) -> heap w !! nullptr = None -> H !! nullptr = None.
Proof.
  intros Hst Hnull. destruct c; cbn [staged requested] in Hst.
  3:{ destruct (bitmaps w !! bitmap); [|done]. injection Hst as <- <-.
      rewrite lookup_insert_ne; [done|apply sk_new_nonnull]. }
  all: injection Hst as <- <-; by rewrite lookup_acquire_all, Hnull.
Qed.

Lemma staged_objects c w H o q :
  staged c w = Some (H, o) -> is_Some (heap w !! q) -> same_objects H (heap w) q.
Proof.
  intros Hst [og Hq]. unfold same_objects.
  by rewrite (staged_lookup _ _ _ _ _ _ Hst Hq), Hq.
Qed.

(** ** Consistency is kept by every step *)

Lemma owners_empty_r (O : gmultiset Z) : O ⊎ ∅ = O.
Proof. multiset_solver. Qed.

Lemma consistent_empty : consistent ∅ ∅.
Proof.
  split.
  - intros p o. by rewrite lookup_empty.
  - intros p. rewrite refs_of_empty. multiset_solver.
  - apply lookup_empty.
Qed.

(** The [sk_sp] made by [sk_ref_sp] is one more owner. *)
Lemma consistent_acquire_all h O l :
  consistent h O -> Forall (λ q, is_Some (h !! q)) l ->
  consistent (acquire_all l h) (O ⊎ list_to_set_disj l).
Proof.
  intros [Hcount Hlive Hnull] Hl.
  assert (Hrefs : refs_of (acquire_all l h) = refs_of h).
  { apply refs_of_same_objects, acquire_all_objects. }
  split.
  - intros q o'. rewrite lookup_acquire_all, Hrefs.
    destruct (h !! q) as [o|] eqn:Hq; [|done]. intros [= <-].
    rewrite add_refs_count, (Hcount q o Hq), !multiplicity_disj_union. lia.
  - intros q. rewrite Hrefs, lookup_acquire_all, fmap_is_Some.
    intros Hin. apply gmultiset_elem_of_disj_union in Hin as [Hin|Hin].
    + apply gmultiset_elem_of_disj_union in Hin as [Hin|Hin].
      * apply Hlive. multiset_solver.
      * apply elem_of_list_to_set_disj in Hin.
        rewrite Forall_forall in Hl. by apply Hl.
    + apply Hlive. multiset_solver.
  - rewrite lookup_acquire_all, Hnull. done.
Qed.

(** A new node takes over the references passed to its factory; its address
    is one more owner. *)
Lemma consistent_alloc h O o p :
  consistent h (O ⊎ list_to_set_disj (sk_sp_fields o)) ->
  h !! p = None -> p <> nullptr ->
  consistent (<[p := fresh_object o]> h) (O ⊎ {[+ p +]}).
Proof.
  intros [Hcount Hlive Hnull] Hp Hp0.
  assert (Hrefs : refs_of (<[p := fresh_object o]> h)
                  = list_to_set_disj (sk_sp_fields o) ⊎ refs_of h).
  { by rewrite refs_of_insert_fresh. }
  assert (Hfresh : p ∉ (O ⊎ list_to_set_disj (sk_sp_fields o)) ⊎ refs_of h).
  { intros Hin. apply Hlive in Hin. rewrite Hp in Hin. by destruct Hin. }
  split.
  - intros q o'. rewrite Hrefs. destruct (decide (q = p)) as [->|Hqp].
    + rewrite lookup_insert_eq. intros [= <-]. cbn.
      apply not_elem_of_multiplicity in Hfresh.
      rewrite !multiplicity_disj_union in *.
      rewrite multiplicity_singleton_eq. lia.
    + rewrite lookup_insert_ne by done. intros Hq.
      rewrite (Hcount q o' Hq), !multiplicity_disj_union.
      rewrite multiplicity_singleton_ne by done. lia.
  - intros q. rewrite Hrefs. intros Hin.
    destruct (decide (q = p)) as [->|Hqp]; [by rewrite lookup_insert_eq|].
    rewrite lookup_insert_ne by done. apply Hlive. multiset_solver.
  - by rewrite lookup_insert_ne.
Qed.

Lemma survives_refl h : survives h h.
Proof. by intros q _. Qed.

Lemma survives_trans h1 h2 h3 : survives h1 h2 -> survives h2 h3 -> survives h1 h3.
Proof.
  intros H12 H23 q Hq. specialize (H23 q Hq). unfold same_objects in *.
  rewrite H23. apply H12.
  destruct Hq as [o Ho]. rewrite Ho in H23.
  destruct (h2 !! q); [by eexists|done].
Qed.

Lemma survives_delete h p : survives h (delete p h).
Proof.
  intros q [Hqp _]%lookup_delete_is_Some. unfold same_objects.
  by rewrite lookup_delete_ne.
Qed.

(** The last reference goes: the object is deleted and the references it
    held are pending. *)
Lemma consistent_delete h O p o :
  consistent h (O ⊎ {[+ p +]}) -> h !! p = Some o -> fRefCnt o = 1%positive ->
  consistent (delete p h) (O ⊎ list_to_set_disj (sk_sp_fields (object o))).
Proof.
  intros [Hcount Hlive Hnull] Hp Hrc.
  pose proof (refs_of_delete h p o Hp) as Hrefs. unfold held in Hrefs.
  pose proof (Hcount p o Hp) as Hcp. rewrite Hrc, Hrefs in Hcp.
  rewrite !multiplicity_disj_union, multiplicity_singleton_eq in Hcp.
  change (Pos.to_nat 1) with 1%nat in Hcp.
  split.
  - intros q o' [Hqp Hq]%lookup_delete_Some.
    rewrite (Hcount q o' Hq), Hrefs, !multiplicity_disj_union.
    rewrite multiplicity_singleton_ne by done. lia.
  - intros q Hin. apply lookup_delete_is_Some. split.
    + intros <-. rewrite elem_of_multiplicity in Hin.
      rewrite !multiplicity_disj_union in Hin. lia.
    + apply Hlive. rewrite Hrefs.
      rewrite elem_of_multiplicity in Hin. rewrite elem_of_multiplicity.
      rewrite !multiplicity_disj_union in *. lia.
  - by rewrite lookup_delete_None; right.
Qed.

(** A reference that is not the last one goes: one decrement. *)
Lemma consistent_decrement h O p o :
  consistent h (O ⊎ {[+ p +]}) -> h !! p = Some o -> fRefCnt o <> 1%positive ->
  consistent (<[p := with_refcnt (Pos.pred (fRefCnt o)) o]> h) O.
Proof.
  intros [Hcount Hlive Hnull] Hp Hrc.
  assert (Hrefs : refs_of (<[p := with_refcnt (Pos.pred (fRefCnt o)) o]> h) = refs_of h).
  { apply refs_of_same_objects. intros q. unfold same_objects.
    destruct (decide (q = p)) as [->|Hqp].
    - by rewrite lookup_insert_eq, Hp.
    - by rewrite lookup_insert_ne. }
  split.
  - intros q o'. rewrite Hrefs. destruct (decide (q = p)) as [->|Hqp].
    + rewrite lookup_insert_eq. intros [= <-]. cbn.
      pose proof (Hcount p o Hp) as Hcp.
      rewrite !multiplicity_disj_union, multiplicity_singleton_eq in Hcp.
      rewrite Pos2Nat.inj_pred by lia. lia.
    + rewrite lookup_insert_ne by done. intros Hq.
      pose proof (Hcount q o' Hq) as Hcq.
      rewrite !multiplicity_disj_union, multiplicity_singleton_ne in Hcq by done. lia.
  - intros q. rewrite Hrefs. intros Hin.
    destruct (decide (q = p)) as [->|Hqp]; [by rewrite lookup_insert_eq|].
    rewrite lookup_insert_ne by done. apply Hlive. multiset_solver.
  - rewrite lookup_insert_ne; [done|]. intros ->. by rewrite Hnull in Hp.
Qed.

(** [unref] on an owned reference: it returns, the heap stays consistent
    with the remaining owners, and no object changes. *)
Lemma unref_consistent n : forall p h O,
  consistent h (O ⊎ {[+ p +]}) -> (size h < n)%nat ->
  exists h', unref_fuel n p h = Some h' /\ consistent h' O /\
             (size h' <= size h)%nat /\ survives h h' /\ released_once p h h'.
Proof.
  induction n as [|n IH]; intros p h O Hc Hn; [lia|].
  assert (Hp : is_Some (h !! p)) by (apply (cons_live _ _ Hc); multiset_solver).
  destruct Hp as [o Hp]. rewrite unref_fuel_S, Hp.
  destruct (Pos.eqb_spec (fRefCnt o) 1) as [Hrc|Hrc].
  - assert (Hlist : forall l h1 O1,
      consistent h1 (O1 ⊎ list_to_set_disj l) -> (size h1 < n)%nat ->
      exists h2, unref_each (unref_fuel n) l h1 = Some h2 /\ consistent h2 O1 /\
                 (size h2 <= size h1)%nat /\ survives h1 h2).
    { induction l as [|c l IHl]; intros h1 O1 Hc1 Hn1.
      - exists h1. rewrite list_to_set_disj_nil, owners_empty_r in Hc1.
        eauto using survives_refl.
      - rewrite list_to_set_disj_cons in Hc1.
        replace (O1 ⊎ ({[+ c +]} ⊎ list_to_set_disj l))
          with ((O1 ⊎ list_to_set_disj l) ⊎ {[+ c +]}) in Hc1 by multiset_solver.
        destruct (IH c h1 _ Hc1 Hn1) as (h1' & Hu & Hc1' & Hs1 & Hsv1 & _).
        destruct (IHl h1' O1 Hc1' ltac:(lia)) as (h2 & Hu2 & Hc2 & Hs2 & Hsv2).
        exists h2. cbn. rewrite Hu. split_and!; [done..|lia|].
        eapply survives_trans; eauto. }
    pose proof (consistent_delete h O p o Hc Hp Hrc) as Hd.
    assert (Hsz : size h = S (size (delete p h))).
    { rewrite <- (insert_delete_id h p o Hp) at 1.
      apply map_size_insert_None, lookup_delete_eq. }
    destruct (Hlist _ _ _ Hd ltac:(lia)) as (h2 & Hu2 & Hc2 & Hs2 & Hsv2).
    exists h2. split_and!; [done..|lia| |].
    + eapply survives_trans; [apply survives_delete|done].
    + exists o. split; [done|]. rewrite Hrc. cbn.
      destruct (h2 !! p) as [o2|] eqn:Hp2; [|done].
      specialize (Hsv2 p ltac:(eauto)). unfold same_objects in Hsv2.
      by rewrite Hp2, lookup_delete_eq in Hsv2.
  - eexists. split_and!; [done|..].
    + by apply consistent_decrement.
    + rewrite map_size_insert_Some by eauto. lia.
    + intros q _. unfold same_objects. destruct (decide (q = p)) as [->|Hqp].
      * by rewrite lookup_insert_eq, Hp.
      * by rewrite lookup_insert_ne.
    + exists o. split; [done|]. by destruct (Pos.eqb_spec (fRefCnt o) 1).
Qed.

Lemma usable_live h O q : consistent h O -> usable O q -> live h q.
Proof.
  intros Hc [->|Hin]; [by left|]. right. apply (cons_live _ _ Hc). multiset_solver.
Qed.

Lemma staged_consistent c w H o O :
  staged c w = Some (H, o) -> consistent (heap w) O ->
  Forall (usable O) (input_handles c) ->
  consistent H (O ⊎ list_to_set_disj (sk_sp_fields o)).
Proof.
  intros Hst Hc Hu.
  assert (Hl : Forall (live (heap w)) (input_handles c)).
  { eapply Forall_impl; [exact Hu|]. intros q. by apply usable_live. }
  destruct (requested c) as [o'|] eqn:Hreq.
  - destruct (invoke_acquire_make c o' w Hreq) as [Hf _].
    assert (H = acquire_all (sk_sp_fields o') (heap w) /\ o = o') as [-> ->].
    { rewrite Hf. destruct c; cbn [staged] in Hst; try done;
        rewrite Hreq in Hst; by injection Hst as <- <-. }
    apply consistent_acquire_all; [done|].
    rewrite Hf. eapply Forall_impl; [apply (live_fields _ _ Hl)|]. by intros ? [_ ?].
  - destruct c; try done. cbn [staged] in Hst.
    destruct (bitmaps w !! bitmap) as [px|]; [|done]. injection Hst as <- <-.
    unfold sk_sp_fields. rewrite filter_cons, decide_True by apply sk_new_nonnull.
    rewrite filter_nil, list_to_set_disj_cons, list_to_set_disj_nil, owners_empty_r.
    apply consistent_alloc; [|apply sk_new_lookup|apply sk_new_nonnull].
    change (sk_sp_fields (SkImage px)) with (@nil Z).
    by rewrite list_to_set_disj_nil, owners_empty_r.
Qed.

(** A factory call keeps the heap consistent; the handle it returns is one
    more owner. *)
Lemma invoke_consistent c w O handle w' :
  consistent (heap w) O -> Forall (usable O) (input_handles c) ->
  invoke c w = Some (handle, w') ->
  consistent (heap w') (O ⊎ owned handle).
Proof.
  intros Hc Hu Hinv.
  rewrite invoke_outcome in Hinv.
  2:{ eapply Forall_impl; [exact Hu|]. intros q. by apply usable_live. }
  destruct (outcome_inv _ _ _ _ Hinv) as (H & o & Hst & Hcase).
  destruct (sk_accepts o).
  - destruct Hcase as (_ & Hnn & Hfresh & ->). unfold owned.
    rewrite decide_False by done. cbn [heap set_heap].
    apply consistent_alloc; [|done..]. by apply (staged_consistent c w).
  - destruct Hcase as [-> ->]. unfold owned. rewrite decide_True by done.
    by rewrite owners_empty_r.
Qed.

Lemma closed_alloc h o p :
  closed h -> Forall (λ f, f <> nullptr /\ is_Some (h !! f)) (sk_sp_fields o) ->
  h !! p = None -> p <> nullptr ->
  closed (<[p := fresh_object o]> h).
Proof.
  intros [Hnull Hcl] Hf Hp Hp0. split; [by rewrite lookup_insert_ne|].
  assert (Hmono : forall c, is_Some (h !! c) -> is_Some (<[p := fresh_object o]> h !! c)).
  { intros c Hc. destruct (decide (c = p)) as [->|?];
      [by rewrite lookup_insert_eq|by rewrite lookup_insert_ne]. }
  intros q oq c. destruct (decide (q = p)) as [->|Hqp].
  - rewrite lookup_insert_eq. intros [= <-] Hin. apply Hmono.
    rewrite Forall_forall in Hf. by apply Hf.
  - rewrite lookup_insert_ne by done. intros Hq Hin. apply Hmono. eauto.
Qed.

Lemma staged_closed c w H o :
  staged c w = Some (H, o) -> closed (heap w) -> closed H.
Proof.
  intros Hst [Hnull Hcl].
  destruct c; cbn [staged requested] in Hst.
  3:{ destruct (bitmaps w !! bitmap) as [px|]; [|done]. injection Hst as <- <-.
      apply closed_alloc; [done|by apply Forall_nil|apply sk_new_lookup|apply sk_new_nonnull]. }
  all: injection Hst as <- <-; split; [by rewrite lookup_acquire_all, Hnull|];
       intros q oq c; rewrite !lookup_acquire_all, fmap_is_Some;
       destruct (heap w !! q) as [og|] eqn:Hq; [|done]; intros [= <-]; eauto.
Qed.

(** A factory call keeps the heap closed, and every object it found is
    still there, counts apart. *)
Lemma invoke_closed c w handle w' :
  closed (heap w) -> Forall (live (heap w)) (input_handles c) ->
  invoke c w = Some (handle, w') ->
  closed (heap w') /\ survives (heap w') (heap w).
Proof.
  intros Hcl Hl Hinv. rewrite invoke_outcome in Hinv by done.
  destruct (outcome_inv _ _ _ _ Hinv) as (H & o & Hst & Hcase).
  destruct (sk_accepts o).
  - destruct Hcase as (_ & Hnn & Hfresh & ->). cbn [heap set_heap]. split.
    + apply closed_alloc; [by apply (staged_closed c w H o)| |done..].
      by apply (staged_fields c w).
    + intros q Hq. unfold same_objects.
      rewrite lookup_insert_ne.
      * by apply (staged_objects c w H o).
      * intros <-. destruct Hq as [og Hq].
        by rewrite (staged_lookup _ _ _ _ _ _ Hst Hq) in Hfresh.
  - destruct Hcase as [-> ->]. split; [done|apply survives_refl].
Qed.

Lemma unref_each_acquire n l h :
  Forall (λ p, p <> nullptr /\ is_Some (h !! p)) l ->
  unref_each (unref_fuel (S n)) l (acquire_all l h) = Some h.
Proof.
  induction l as [|c l IH]; intros Hl; [done|].
  inversion Hl as [|? ? [Hc0 Hc] Hl']; subst.
  change (acquire_all (c :: l) h) with (acquire c (acquire_all l h)).
  cbn [unref_each]. rewrite unref_acquire; [by apply IH|].
  destruct Hc as [o Ho]. rewrite lookup_acquire_all, Ho. by eexists.
Qed.

(** The finalizer on an owned handle. *)
Lemma finalizer_consistent w O handle :
  consistent (heap w) (O ⊎ {[+ handle +]}) ->
  exists w', finalizer handle w = Some (tt, w') /\ bitmaps w' = bitmaps w /\
             consistent (heap w') O /\ survives (heap w) (heap w') /\
             released_once handle (heap w) (heap w').
Proof.
  intros Hc.
  assert (Hnn : handle <> nullptr).
  { intros ->. assert (Hin : is_Some (heap w !! nullptr))
      by (apply (cons_live _ _ Hc); multiset_solver).
    rewrite (cons_nonnull _ _ Hc) in Hin. by destruct Hin. }
  destruct (unref_consistent (S (size (heap w))) handle (heap w) O Hc ltac:(lia))
    as (h' & Hu & Hc' & _ & Hsv & Hrel).
  exists (set_heap h' w).
  unfold finalizer, getRenderEffectFinalizer, RenderEffect_safeUnref,
    reinterpret_cast, SkSafeUnref.
  rewrite decide_False by done. unfold SkRefCnt_unref. rewrite Hu. done.
Qed.

Lemma step_consistent s s' :
  step s s' -> consistent (heap s.1) s.2 -> consistent (heap s'.1) s'.2.
Proof.
  intros Hstep. destruct Hstep as [w O c j w' Hu Hinv|w O j w' Hfin|w O b px]; cbn.
  - intros Hc. by apply (invoke_consistent c w).
  - intros Hc. destruct (finalizer_consistent w O j Hc) as (w1 & Hf & _ & Hc1 & _).
    rewrite Hfin in Hf. by injection Hf as <-.
  - done.
Qed.

Lemma steps_consistent s s' :
  rtc step s s' -> consistent (heap s.1) s.2 -> consistent (heap s'.1) s'.2.
Proof.
  induction 1 as [|s1 s2 s3 Hstep _ IH]; [done|].
  intros Hc. apply IH. by apply (step_consistent s1).
Qed.

(** ** Evaluation only reads the objects that are reachable *)

Lemma consistent_closed h O : consistent h O -> closed h.
Proof.
  intros Hc. split; [apply (cons_nonnull _ _ Hc)|].
  intros q o c Hq Hin. apply (cons_live _ _ Hc).
  apply gmultiset_elem_of_disj_union. right. eapply held_in_refs; eauto.
Qed.

Lemma filterImage_null n h x : filterImage n h nullptr x = Some x.
Proof. by destruct n. Qed.

Lemma filterImage_survives h h' :
  closed h' -> survives h h' -> h !! nullptr = None ->
  forall n q x, live h' q -> filterImage n h' q x = filterImage n h q x.
Proof.
  intros [Hnull' Hc] Hsv Hnull. induction n as [|n IH]; intros q x Hq.
  - cbn. by destruct (decide (q = nullptr)).
  - destruct (decide (q = nullptr)) as [->|Hq0]; [by rewrite !filterImage_null|].
    destruct Hq as [?|Hq]; [done|].
    pose proof (Hsv q Hq) as Hobj. unfold same_objects in Hobj.
    destruct Hq as [o' Hq']. cbn. rewrite !decide_False by done.
    rewrite Hq' in *. destruct (h !! q) as [o|] eqn:Hq1; [|done].
    injection Hobj as Hobj. rewrite <- Hobj.
    assert (Hfield : forall c, c ∈ sk_sp_fields (object o') -> live h' c /\ same_objects h h' c).
    { intros c Hin. pose proof (Hc _ _ _ Hq' Hin) as Hl.
      split; [by right|by apply Hsv]. }
    assert (Hany : forall c, c ∈ sk_sp_fields (object o') \/ c = nullptr ->
                     (live h' c) /\ object <$> h' !! c = object <$> h !! c).
    { intros c [Hin| ->]; [by apply Hfield|]. split; [by left|]. by rewrite Hnull, Hnull'. }
    destruct (object o') as [| |dx dy i|sx sy tm i|img s d qq|cf i|m bg fg|outer inner];
      try done; unfold sk_sp_fields in Hany.
    + rewrite IH; [done|]. destruct (decide (i = nullptr)); [by left|].
      apply Hany. left. rewrite filter_cons, decide_True by done. set_solver.
    + rewrite IH; [done|]. destruct (decide (i = nullptr)); [by left|].
      apply Hany. left. rewrite filter_cons, decide_True by done. set_solver.
    + assert (object <$> h' !! img = object <$> h !! img) as ->; [|done].
      destruct (decide (img = nullptr)); [apply Hany; by right|].
      apply Hany. left. rewrite filter_cons, decide_True by done. set_solver.
    + rewrite IH.
      2:{ destruct (decide (i = nullptr)); [by left|].
          apply Hany. left. apply list_elem_of_filter. split; [done|set_solver]. }
      assert (object <$> h' !! cf = object <$> h !! cf) as ->; [|done].
      destruct (decide (cf = nullptr)); [apply Hany; by right|].
      apply Hany. left. apply list_elem_of_filter. split; [done|set_solver].
    + rewrite !IH; [done|..].
      * destruct (decide (fg = nullptr)); [by left|].
        apply Hany. left. apply list_elem_of_filter. split; [done|set_solver].
      * destruct (decide (bg = nullptr)); [by left|].
        apply Hany. left. apply list_elem_of_filter. split; [done|set_solver].
    + rewrite IH.
      2:{ destruct (decide (inner = nullptr)); [by left|].
          apply Hany. left. apply list_elem_of_filter. split; [done|set_solver]. }
      destruct (filterImage n h inner x); [|done]. apply IH.
      destruct (decide (outer = nullptr)); [by left|].
      apply Hany. left. apply list_elem_of_filter. split; [done|set_solver].
Qed.

(** ** What a successful call leaves behind *)

Lemma invoke_built c w j w' :
  Forall (live (heap w)) (input_handles c) ->
  invoke c w = Some (j, w') -> j <> 0 ->
  exists H o, staged c w = Some (H, o) /\ sk_accepts o = true /\
    j = sk_new (dom H) /\ H !! j = None /\
    w' = set_heap (<[j := fresh_object o]> H) w.
Proof.
  intros Hl Hinv Hj. rewrite invoke_outcome in Hinv by done.
  destruct (outcome_inv _ _ _ _ Hinv) as (H & o & Hst & Hcase).
  exists H, o. destruct (sk_accepts o); [|by destruct Hcase].
  by destruct Hcase as (? & ? & ? & ?).
Qed.

Lemma invoke_fresh c w j w' :
  Forall (live (heap w)) (input_handles c) ->
  invoke c w = Some (j, w') -> j <> 0 ->
  heap w !! j = None /\ is_Some (heap w' !! j) /\ Forall (λ q, q <> j) (input_handles c).
Proof.
  intros Hl Hinv Hj.
  destruct (invoke_built c w j w' Hl Hinv Hj) as (H & o & Hst & _ & _ & Hfresh & ->).
  assert (Hold : heap w !! j = None).
  { destruct (heap w !! j) as [og|] eqn:Hq; [|done].
    by rewrite (staged_lookup _ _ _ _ _ _ Hst Hq) in Hfresh. }
  split_and!; [done|cbn [heap set_heap]; by rewrite lookup_insert_eq|].
  eapply Forall_impl; [exact Hl|]. intros q [->|Hq] <-; [done|].
  rewrite Hold in Hq. by destruct Hq.
Qed.

Lemma invoke_node c w j w' o :
  Forall (live (heap w)) (input_handles c) ->
  invoke c w = Some (j, w') -> j <> 0 -> requested c = Some o ->
  heap w' !! j = Some (fresh_object o).
Proof.
  intros Hl Hinv Hj Hreq.
  destruct (invoke_built c w j w' Hl Hinv Hj) as (H & o' & Hst & _ & _ & _ & ->).
  cbn [heap set_heap]. rewrite lookup_insert_eq. do 2 f_equal.
  destruct c; cbn [staged] in Hst; try done; rewrite Hreq in Hst; by injection Hst.
Qed.

Lemma filterImage_after c w j w' :
  closed (heap w) -> Forall (live (heap w)) (input_handles c) ->
  invoke c w = Some (j, w') ->
  forall n q x, live (heap w) q -> filterImage n (heap w') q x = filterImage n (heap w) q x.
Proof.
  intros Hcl Hl Hinv n q x Hq.
  destruct (invoke_closed c w j w' Hcl Hl Hinv) as [[Hnull _] Hsv].
  symmetry. by apply filterImage_survives.
Qed.

Lemma filterImage_compose h j outer inner n x :
  h !! j = Some (fresh_object (SkComposeImageFilter outer inner)) -> j <> 0 ->
  filterImage (S n) h j x = filterImage n h inner x ≫= filterImage n h outer.
Proof. intros Hj Hj0. cbn. rewrite decide_False by done. by rewrite Hj. Qed.

Lemma filterImage_blend h j m bg fg n x :
  h !! j = Some (fresh_object (SkBlendImageFilter m bg fg)) -> j <> 0 ->
  filterImage (S n) h j x =
  a ← filterImage n h bg x; b ← filterImage n h fg x; Some (raster_blend m a b).
Proof.
  intros Hj Hj0. cbn. rewrite decide_False by done. rewrite Hj. cbn.
  destruct (filterImage n h bg x); [|done]. by destruct (filterImage n h fg x).
Qed.

(** * The claims *)

Ltac live_args :=
  cbn [input_handles];
  repeat (apply List.Forall_cons; [first [assumption | by left | by right]|]);
  apply List.Forall_nil.

(** C10. The deallocation hook is null-safe: on the handle 0 it returns and
    leaves the whole world (every object, every count, every bitmap) as it
    was, because [SkSafeUnref] tests the pointer before it decrements. *)
Theorem finalizer_null_is_noop w : finalizer 0 w = Some (tt, w).
Proof. reflexivity. Qed.

(** Without the test the hook would be undefined on 0: nothing lives at the
    null address. *)
Lemma unref_null_undefined w :
  heap w !! nullptr = None -> SkRefCnt_unref nullptr w = None.
Proof. intros Hnull. unfold SkRefCnt_unref. by rewrite unref_fuel_S, Hnull. Qed.

(** C8. A factory call that passes 0 for an input-filter handle returns a
    handle, whatever the heap: the absent input is never dereferenced.  The
    other handle arguments of the call are 0 or live.  The result is 0 and
    the world is unchanged when the library builds no node; otherwise it is
    the address of the requested node, whose field for the absent input is
    null. *)
Theorem absent_input_is_safe c w :
  0 ∈ input_handles c ->
  Forall (live (heap w)) (input_handles c) ->
  exists handle w', invoke c w = Some (handle, w') /\
    ((handle = 0 /\ w' = w) \/
     (handle <> 0 /\ exists o, requested c = Some o /\
                              heap w' !! handle = Some (fresh_object o))).
Proof.
  intros H0 Hl.
  destruct (requested c) as [o|] eqn:Hreq.
  2:{ destruct c; try done. cbn in H0. by apply elem_of_nil in H0. }
  assert (Hst : exists H, staged c w = Some (H, o)).
  { destruct c; try done; cbn [staged]; rewrite Hreq; eauto. }
  destruct Hst as [H Hst].
  assert (Hout : exists handle w', invoke c w = Some (handle, w')).
  { rewrite invoke_outcome by done. unfold outcome. rewrite Hst.
    destruct (sk_accepts o); eauto. }
  destruct Hout as (handle & w' & Hinv). exists handle, w'. split; [done|].
  destruct (decide (handle = 0)) as [->|Hnz].
  - left. split; [done|]. rewrite invoke_outcome in Hinv by done.
    destruct (outcome_inv _ _ _ _ Hinv) as (H' & o' & _ & Hcase).
    destruct (sk_accepts o'); [by destruct Hcase as (_ & ? & _)|by destruct Hcase].
  - right. split; [done|]. exists o. split; [done|].
    by apply (invoke_node c w).
Qed.

(** C7. No factory call has an error value.  With handle arguments that are
    0 or live, the call is decided by the library alone: once the node to
    ask for is determined ([staged]; only a bitmap handle that denotes no
    bitmap leaves it undetermined, which is undefined behaviour), the call
    returns the address of the node the library built, or, when the library
    builds none, the handle 0 and an unchanged world; the handle 0 denotes
    the identity filter. *)
Theorem construction_failure_is_null c w :
  Forall (live (heap w)) (input_handles c) ->
  match staged c w with
  | None => invoke c w = None
  | Some (H, o) =>
      if sk_accepts o
      then exists handle, handle <> 0 /\ H !! handle = None /\
             invoke c w = Some (handle, set_heap (<[handle := fresh_object o]> H) w)
      else invoke c w = Some (0, w) /\
           forall n x, filterImage n (heap w) 0 x = Some x
  end.
Proof.
  intros Hl. rewrite invoke_outcome by done. unfold outcome.
  destruct (staged c w) as [[H o]|]; [|done].
  destruct (sk_accepts o).
  - exists (sk_new (dom H)). split_and!; [apply sk_new_nonnull|apply sk_new_lookup|done].
  - split; [done|]. intros n x. apply filterImage_null.
Qed.

(** C5. For valid constructor inputs (handle arguments 0 or live, a bitmap
    handle that denotes a bitmap, arguments the library accepts) a factory
    call returns a handle that is not 0 and that is the address of no object
    that was live before the call.  Its node is live after the call, and in
    every world in which it is live (the one after the call, and any later
    one in which the handle was not released) every construction returns a
    handle different from it. *)
Theorem handles_nonzero_and_distinct c w :
  Forall (live (heap w)) (input_handles c) -> accepted c w ->
  exists handle w', invoke c w = Some (handle, w') /\
    handle <> 0 /\ heap w !! handle = None /\ is_Some (heap w' !! handle) /\
    forall w'' c2 handle2 w2,
      is_Some (heap w'' !! handle) ->
      Forall (live (heap w'')) (input_handles c2) ->
      invoke c2 w'' = Some (handle2, w2) -> handle2 <> 0 -> handle2 <> handle.
Proof.
  intros Hl (H & o & Hst & Hacc).
  assert (Hinv : invoke c w = Some (sk_new (dom H),
                   set_heap (<[sk_new (dom H) := fresh_object o]> H) w)).
  { rewrite invoke_outcome by done. unfold outcome. by rewrite Hst, Hacc. }
  pose proof (sk_new_nonnull (dom H)) as Hnz.
  destruct (invoke_fresh _ _ _ _ Hl Hinv Hnz) as (Hold & Hnew & _).
  eexists _, _. split_and!; [done..|].
  intros w'' c2 handle2 w2 Hstill Hl2 Hinv2 Hnz2 Heq. subst handle2.
  destruct (invoke_fresh _ _ _ _ Hl2 Hinv2 Hnz2) as (Hold2 & _).
  rewrite Hold2 in Hstill. by destruct Hstill.
Qed.

Lemma staged_retains c w H o :
  staged c w = Some (H, o) ->
  Forall (λ q, q = nullptr \/ q ∈ sk_sp_fields o) (input_handles c).
Proof.
  intros Hst. destruct (requested c) as [o'|] eqn:Hreq.
  - assert (o' = o) as ->.
    { destruct c; cbn [staged requested] in Hst, Hreq; congruence. }
    destruct (invoke_acquire_make c o w Hreq) as [-> _].
    apply Forall_forall. intros q Hq.
    destruct (decide (q = nullptr)) as [->|Hq0]; [by left|right].
    by apply list_elem_of_filter.
  - by destruct c.
Qed.

(** C6. A factory call treats its input handles as read-only.  On handle
    arguments that are 0 or live and a node the library accepts, every
    factory with an input handle (offset, blur, colour filter, blend,
    chain) returns; the handle it returns is not 0 and is the address of a
    new object (no object lived there, and it is none of the input handles)
    whose count is 1 and whose fields hold every input handle that is not 0;
    every object that was live keeps its contents, and its count grows by
    exactly the number of times the call passes its address as an input
    (one new reference per input, none for the objects that are not
    inputs). *)
Theorem inputs_are_readonly c w :
  Forall (live (heap w)) (input_handles c) -> accepted c w ->
  exists handle w', invoke c w = Some (handle, w') /\
    handle <> 0 /\
    Forall (λ q, q <> handle) (input_handles c) /\
    heap w !! handle = None /\
    (exists o, heap w' !! handle = Some (fresh_object o) /\
       Forall (λ q, q = 0 \/ q ∈ sk_sp_fields o) (input_handles c)) /\
    forall q og, heap w !! q = Some og ->
      heap w' !! q = Some (add_refs (uses c q) og).
Proof.
  intros Hl (H & o & Hst & Hacc).
  assert (Hinv : invoke c w = Some (sk_new (dom H),
                   set_heap (<[sk_new (dom H) := fresh_object o]> H) w)).
  { rewrite invoke_outcome by done. unfold outcome. by rewrite Hst, Hacc. }
  pose proof (sk_new_nonnull (dom H)) as Hnz.
  destruct (invoke_fresh _ _ _ _ Hl Hinv Hnz) as (Hold & _ & Hdiff).
  eexists _, _. split_and!; [done..| |]; cbn [heap set_heap].
  - exists o. split; [by rewrite lookup_insert_eq|]. by apply (staged_retains c w H).
  - intros q og Hq. rewrite lookup_insert_ne.
    + by apply (staged_lookup c w H o).
    + intros <-. by rewrite Hold in Hq.
Qed.

(** C3. [createBlurEffect] hands the library the sigma
    [convertRadiusToSigma radiusX] for x and [convertRadiusToSigma radiusY]
    for y: one conversion for both radii, applied to each radius on its own.
    The sigma of a radius is the same in any two calls, whatever the heaps
    the calls run in (that is, whatever was called before), the other
    radius, the input and the edge treatment. *)
Theorem blur_sigma_is_a_function_of_radius
    w1 rx1 ry1 in1 e1 j1 w1' w2 rx2 ry2 in2 e2 j2 w2' :
  live (heap w1) in1 -> live (heap w2) in2 ->
  createBlurEffect rx1 ry1 in1 e1 w1 = Some (j1, w1') -> j1 <> 0 ->
  createBlurEffect rx2 ry2 in2 e2 w2 = Some (j2, w2') -> j2 <> 0 ->
  exists sx1 sy1 sx2 sy2,
    blur_sigmas (heap w1') j1 = Some (sx1, sy1) /\
    blur_sigmas (heap w2') j2 = Some (sx2, sy2) /\
    sx1 = convertRadiusToSigma rx1 /\ sy1 = convertRadiusToSigma ry1 /\
    (rx1 = rx2 -> sx1 = sx2) /\ (ry1 = ry2 -> sy1 = sy2) /\
    (rx1 = ry2 -> sx1 = sy2) /\ (ry1 = rx2 -> sy1 = sx2).
Proof.
  intros Hl1 Hl2 Hc1 Hj1 Hc2 Hj2.
  assert (Hls1 : Forall (live (heap w1)) (input_handles (nativeCreateBlurEffect rx1 ry1 in1 e1)))
    by live_args.
  assert (Hls2 : Forall (live (heap w2)) (input_handles (nativeCreateBlurEffect rx2 ry2 in2 e2)))
    by live_args.
  pose proof (invoke_node _ w1 j1 w1' _ Hls1 Hc1 Hj1 eq_refl) as Hn1.
  pose proof (invoke_node _ w2 j2 w2' _ Hls2 Hc2 Hj2 eq_refl) as Hn2.
  unfold blur_sigmas. rewrite Hn1, Hn2. cbn.
  eexists _, _, _, _. split_and!; try reflexivity; by intros ->.
Qed.

(** C9. The bitmap effect is a snapshot.  When [createBitmapEffect] builds a
    node from a bitmap whose pixels are [px] at the time of the call, the
    node draws [px] (from the source rectangle to the destination rectangle,
    at low filter quality) after any sequence of later writes to any
    bitmap, that bitmap included: the output is the one with no write at
    all. *)
Theorem bitmap_effect_is_snapshot w b s d px handle w' :
  bitmaps w !! b = Some px ->
  invoke (nativeCreateBitmapEffect b s d) w = Some (handle, w') -> handle <> 0 ->
  forall writes n x,
    filterImage (S n) (heap (mutate writes w')) handle x
      = Some (raster_image px s d kLow_SkFilterQuality) /\
    filterImage (S n) (heap (mutate writes w')) handle x
      = filterImage (S n) (heap w') handle x.
Proof.
  intros Hb Hinv Hnz writes n x.
  assert (Hheap : heap (mutate writes w') = heap w').
  { clear. revert w'. induction writes as [|[b px] l IH]; intros w'; [done|].
    change (mutate ((b, px) :: l) w') with (mutate l (set_pixels b px w')).
    by rewrite IH. }
  rewrite Hheap. split; [|done].
  destruct (invoke_built (nativeCreateBitmapEffect b s d) w handle w'
              (List.Forall_nil _) Hinv Hnz)
    as (H & o & Hst & _ & _ & Hfresh & ->).
  cbn [staged] in Hst. rewrite Hb in Hst. injection Hst as <- <-.
  cbn [heap set_heap]. cbn [filterImage]. rewrite decide_False by done.
  rewrite lookup_insert_eq. cbn [object fresh_object].
  rewrite lookup_insert_ne.
  - by rewrite lookup_insert_eq.
  - intros ->. by rewrite lookup_insert_eq in Hfresh.
Qed.

(** C1. [createChainEffect outer inner], when the library builds the node,
    returns the address of a new object (no object lived there; it is
    neither [outer] nor [inner]), a compose node of [outer] and [inner] in
    this order.  Evaluating it is evaluating [inner] and then [outer] on the
    result, each as it evaluated before the call.  Hence chaining [A] with
    the chain of [outer] and [inner] evaluates as A(outer(inner(x))). *)
Theorem chain_is_composition w outer inner handle w' :
  closed (heap w) -> live (heap w) outer -> live (heap w) inner ->
  createChainEffect outer inner w = Some (handle, w') -> handle <> 0 ->
  (heap w !! handle = None /\ handle <> outer /\ handle <> inner /\
   heap w' !! handle = Some (fresh_object (SkComposeImageFilter outer inner))) /\
  (forall n x,
     filterImage (S n) (heap w') handle x
       = filterImage n (heap w) inner x ≫= filterImage n (heap w) outer) /\
  (forall A handle2 w2,
     live (heap w') A ->
     createChainEffect A handle w' = Some (handle2, w2) -> handle2 <> 0 ->
     forall n x,
       filterImage (S (S n)) (heap w2) handle2 x
         = (filterImage n (heap w) inner x ≫= filterImage n (heap w) outer)
             ≫= filterImage (S n) (heap w') A).
Proof.
  intros Hcl Ho Hi Hinv Hnz.
  set (c := nativeCreateChainEffect outer inner).
  assert (Hl : Forall (live (heap w)) (input_handles c)) by live_args.
  change (invoke c w = Some (handle, w')) in Hinv.
  destruct (invoke_fresh _ _ _ _ Hl Hinv Hnz) as (Hold & Hnew & Hdiff).
  pose proof (invoke_node c w handle w' _ Hl Hinv Hnz eq_refl) as Hnode.
  destruct (invoke_closed c w handle w' Hcl Hl Hinv) as [Hcl' _].
  assert (Heval : forall n x, filterImage (S n) (heap w') handle x
            = filterImage n (heap w) inner x ≫= filterImage n (heap w) outer).
  { intros n x. rewrite (filterImage_compose _ _ _ _ _ _ Hnode Hnz).
    rewrite (filterImage_after c w handle w' Hcl Hl Hinv n inner x Hi).
    destruct (filterImage n (heap w) inner x) as [r|]; [|done]. cbn.
    by apply (filterImage_after c w handle w'). }
  split_and!; try done.
  - inversion Hdiff as [|? ? Hne _]; subst. by intros <-.
  - inversion Hdiff as [|? ? _ Hd2]; subst. inversion Hd2 as [|? ? Hne _]; subst.
    by intros <-.
  - intros A handle2 w2 HA Hinv2 Hnz2 n x.
    set (c2 := nativeCreateChainEffect A handle).
    assert (Hl2 : Forall (live (heap w')) (input_handles c2)).
    { by live_args. }
    change (invoke c2 w' = Some (handle2, w2)) in Hinv2.
    pose proof (invoke_node c2 w' handle2 w2 _ Hl2 Hinv2 Hnz2 eq_refl) as Hnode2.
    rewrite (filterImage_compose _ _ _ _ _ _ Hnode2 Hnz2).
    rewrite (filterImage_after c2 w' handle2 w2 Hcl' Hl2 Hinv2 (S n) handle x)
      by (by right).
    rewrite Heval.
    destruct (filterImage n (heap w) inner x ≫= filterImage n (heap w) outer) as [r|];
      [|done].
    cbn [mbind option_bind]. by apply (filterImage_after c2 w' handle2 w2).
Qed.

(** C2. [createBlendModeEffect bg fg mode] composites the foreground over
    the background, and the order of the two handles matters.  With [a] the
    output of [bg] and [b] the output of [fg] on a source image, the node
    built for (bg, fg) outputs [raster_blend mode a b] and the node built
    for the swapped handles outputs [raster_blend mode b a]: swapping the
    handles changes the composite on every pair of inputs on which the mode
    does not commute. *)
Theorem blend_is_order_sensitive w bg fg mode j1 w1 j2 w2 :
  closed (heap w) -> live (heap w) bg -> live (heap w) fg ->
  createBlendModeEffect bg fg mode w = Some (j1, w1) -> j1 <> 0 ->
  createBlendModeEffect fg bg mode w = Some (j2, w2) -> j2 <> 0 ->
  forall n x a b,
    filterImage n (heap w) bg x = Some a ->
    filterImage n (heap w) fg x = Some b ->
    filterImage (S n) (heap w1) j1 x = Some (raster_blend (SkBlendMode_of mode) a b) /\
    filterImage (S n) (heap w2) j2 x = Some (raster_blend (SkBlendMode_of mode) b a) /\
    (raster_blend (SkBlendMode_of mode) a b <> raster_blend (SkBlendMode_of mode) b a ->
     filterImage (S n) (heap w1) j1 x <> filterImage (S n) (heap w2) j2 x).
Proof.
  intros Hcl Hbg Hfg Hinv1 Hnz1 Hinv2 Hnz2 n x a b Ha Hb.
  set (c1 := nativeCreateBlendModeEffect bg fg mode).
  set (c2 := nativeCreateBlendModeEffect fg bg mode).
  assert (Hl1 : Forall (live (heap w)) (input_handles c1)) by live_args.
  assert (Hl2 : Forall (live (heap w)) (input_handles c2)) by live_args.
  change (invoke c1 w = Some (j1, w1)) in Hinv1.
  change (invoke c2 w = Some (j2, w2)) in Hinv2.
  pose proof (invoke_node c1 w j1 w1 _ Hl1 Hinv1 Hnz1 eq_refl) as Hn1.
  pose proof (invoke_node c2 w j2 w2 _ Hl2 Hinv2 Hnz2 eq_refl) as Hn2.
  assert (H1 : filterImage (S n) (heap w1) j1 x
               = Some (raster_blend (SkBlendMode_of mode) a b)).
  { rewrite (filterImage_blend _ _ _ _ _ _ _ Hn1 Hnz1).
    rewrite !(filterImage_after c1 w j1 w1 Hcl Hl1 Hinv1) by done.
    by rewrite Ha, Hb. }
  assert (H2 : filterImage (S n) (heap w2) j2 x
               = Some (raster_blend (SkBlendMode_of mode) b a)).
  { rewrite (filterImage_blend _ _ _ _ _ _ _ Hn2 Hnz2).
    rewrite !(filterImage_after c2 w j2 w2 Hcl Hl2 Hinv2) by done.
    by rewrite Ha, Hb. }
  split_and!; [done..|]. rewrite H1, H2. intros Hne [= Heq]. by apply Hne.
Qed.

(** C4. Let a factory call return a handle that is not 0, in a heap that is
    consistent with the handles the managed side owns.  At any later time
    (after any factory calls on owned handles, finalizer runs on other owned
    handles and bitmap writes) at which the managed side still owns the
    handle, the deallocation hook on it returns; the count of its node goes
    down by exactly one (the node is deleted when that was its last
    reference); and every other handle the managed side owns is untouched:
    its object is still there with the same contents, and its filter graph
    evaluates as before, also when that graph contains the released node. *)
Theorem release_once w O c handle w1 :
  consistent (heap w) O -> Forall (usable O) (input_handles c) ->
  invoke c w = Some (handle, w1) -> handle <> 0 ->
  forall w2 O2,
    rtc step (w1, O ⊎ {[+ handle +]}) (w2, O2 ⊎ {[+ handle +]}) ->
    exists w3,
      finalizer handle w2 = Some (tt, w3) /\
      released_once handle (heap w2) (heap w3) /\
      consistent (heap w3) O2 /\ bitmaps w3 = bitmaps w2 /\
      forall q, q ∈ O2 ->
        is_Some (heap w3 !! q) /\ same_objects (heap w2) (heap w3) q /\
        forall n x, filterImage n (heap w3) q x = filterImage n (heap w2) q x.
Proof.
  intros Hc Hu Hinv Hnz w2 O2 Hsteps.
  pose proof (invoke_consistent c w O handle w1 Hc Hu Hinv) as Hc1.
  unfold owned in Hc1. rewrite decide_False in Hc1 by done.
  pose proof (steps_consistent _ _ Hsteps Hc1) as Hc2. cbn in Hc2.
  destruct (finalizer_consistent w2 O2 handle Hc2) as (w3 & Hfin & Hbm & Hc3 & Hsv & Hrel).
  exists w3. split_and!; [done..|].
  intros q Hq.
  assert (Hlive : is_Some (heap w3 !! q)) by (apply (cons_live _ _ Hc3); multiset_solver).
  split_and!; [done|by apply Hsv|].
  intros n x. apply filterImage_survives; [by apply (consistent_closed _ O2)|done| |by right].
  apply (cons_nonnull _ _ Hc2).
Qed.

(** * Further properties of the entry points *)

(** Forwarding: the node a call builds holds the arguments of the call, in
    the positions the source gives them.  The blur node holds the converted
    radii and the tile mode cast from the integer, the blend node the blend
    mode cast from the integer and (background, foreground), the compose
    node (outer, inner), the image node an image of the bitmap's pixels, the
    two rectangles and low filter quality. *)
Theorem arguments_are_forwarded c w handle w' :
  Forall (live (heap w)) (input_handles c) ->
  invoke c w = Some (handle, w') -> handle <> 0 ->
  match c with
  | nativeCreateOffsetEffect dx dy input =>
      object <$> heap w' !! handle = Some (SkOffsetImageFilter dx dy input)
  | nativeCreateBlurEffect rx ry input e =>
      object <$> heap w' !! handle
        = Some (SkBlurImageFilter (convertRadiusToSigma rx) (convertRadiusToSigma ry)
                                  (SkTileMode_of e) input)
  | nativeCreateBitmapEffect b s d =>
      exists img px, bitmaps w !! b = Some px /\
        object <$> heap w' !! handle = Some (SkImageImageFilter img s d kLow_SkFilterQuality) /\
        object <$> heap w' !! img = Some (SkImage px)
  | nativeCreateColorFilterEffect cf input =>
      object <$> heap w' !! handle = Some (SkColorFilterImageFilter cf input)
  | nativeCreateBlendModeEffect bg fg m =>
      object <$> heap w' !! handle = Some (SkBlendImageFilter (SkBlendMode_of m) bg fg)
  | nativeCreateChainEffect outer inner =>
      object <$> heap w' !! handle = Some (SkComposeImageFilter outer inner)
  end.
Proof.
  intros Hl Hinv Hnz.
  destruct c.
  3:{ destruct (invoke_built _ w handle w' Hl Hinv Hnz) as (H & o & Hst & _ & _ & Hfresh & ->).
      cbn [staged] in Hst. destruct (bitmaps w !! bitmap) as [px|]; [|done].
      injection Hst as <- <-. exists (sk_new (dom (heap w))), px.
      cbn [heap set_heap]. split_and!; [done|by rewrite lookup_insert_eq|].
      rewrite lookup_insert_ne; [by rewrite lookup_insert_eq|].
      intros ->. by rewrite lookup_insert_eq in Hfresh. }
  all: by rewrite (invoke_node _ w handle w' _ Hl Hinv Hnz eq_refl).
Qed.

(** Counting: a factory call on handles the managed side owns keeps every
    count equal to the number of references to the object (the owned handles
    and the fields of the live objects), with the returned handle as one
    more owned handle when it is not 0. *)
Theorem factory_keeps_counts_exact c w O handle w' :
  consistent (heap w) O -> Forall (usable O) (input_handles c) ->
  invoke c w = Some (handle, w') ->
  consistent (heap w') (O ⊎ owned handle) /\
  forall p o, heap w' !! p = Some o ->
    Pos.to_nat (fRefCnt o)
      = (multiplicity p (O ⊎ owned handle) + multiplicity p (refs_of (heap w')))%nat.
Proof.
  intros Hc Hu Hinv.
  pose proof (invoke_consistent c w O handle w' Hc Hu Hinv) as Hc'.
  split; [done|]. apply (cons_count _ _ Hc').
Qed.

(** No leak: the hook right after the call undoes the call.  The count of
    the new node goes from 1 to 0, the node is deleted, its destructor gives
    back the references the call took, and the world is the one before the
    call. *)
Theorem create_then_release_restores c w handle w' :
  Forall (live (heap w)) (input_handles c) ->
  invoke c w = Some (handle, w') ->
  finalizer handle w' = Some (tt, w).
Proof.
  intros Hl Hinv.
  pose proof (staged_fields c w) as Hfields.
  rewrite invoke_outcome in Hinv by done.
  destruct (outcome_inv _ _ _ _ Hinv) as (H & o & Hst & Hcase).
  specialize (Hfields H o Hst Hl).
  destruct (sk_accepts o); [|by destruct Hcase as [-> ->]].
  destruct Hcase as (_ & Hnz & Hfresh & ->).
  unfold finalizer, getRenderEffectFinalizer, RenderEffect_safeUnref,
    reinterpret_cast, SkSafeUnref.
  rewrite decide_False by done. unfold SkRefCnt_unref. cbn [heap set_heap].
  rewrite map_size_insert_None by done.
  rewrite unref_fuel_S, lookup_insert_eq. cbn [fresh_object fRefCnt object Pos.eqb].
  rewrite delete_insert_id by done.
  assert (Hback : unref_each (unref_fuel (S (size H))) (sk_sp_fields o) H = Some (heap w)).
  { destruct (requested c) as [o'|] eqn:Hreq.
    - destruct (invoke_acquire_make c o' w Hreq) as [Hf _].
      assert (H = acquire_all (sk_sp_fields o') (heap w) /\ o = o') as [-> ->].
      { rewrite Hf. destruct c; cbn [staged] in Hst; try done;
          rewrite Hreq in Hst; by injection Hst as <- <-. }
      apply unref_each_acquire. rewrite Hf. by apply live_fields.
    - destruct c; try done. cbn [staged] in Hst.
      destruct (bitmaps w !! bitmap) as [px|]; [|done]. injection Hst as <- <-.
      unfold sk_sp_fields. rewrite filter_cons, decide_True by apply sk_new_nonnull.
      rewrite filter_nil. cbn [unref_each].
      rewrite unref_fuel_S, lookup_insert_eq. cbn [fresh_object fRefCnt object Pos.eqb].
      change (sk_sp_fields (SkImage px)) with (@nil Z). cbn [unref_each].
      by rewrite delete_insert_id by apply sk_new_lookup. }
  rewrite Hback. by rewrite set_heap_set_heap, set_heap_id.
Qed.

(** ** Handles are used unchecked *)

(** The known-bitmap condition of a call: the bitmap effect needs a handle
    that denotes a bitmap; the other calls take no bitmap. *)
Definition known_bitmap (w : world) (c : factory_call) : Prop :=
  match c with
  | nativeCreateBitmapEffect b _ _ => is_Some (bitmaps w !! b)
  | _ => True
  end.

Lemma for_each_ref_defined l w :
  is_Some (for_each SkRefCnt_ref l w) -> Forall (λ p, is_Some (heap w !! p)) l.
Proof.
  revert w. induction l as [|a l IH]; intros w Hsome; [apply List.Forall_nil|].
  change (for_each SkRefCnt_ref (a :: l) w)
    with (bind (SkRefCnt_ref a) (λ _, for_each SkRefCnt_ref l) w) in Hsome.
  unfold bind in Hsome.
  destruct (heap w !! a) as [o|] eqn:Ha.
  - rewrite ref_acquire in Hsome by (by rewrite Ha).
    apply List.Forall_cons; [by rewrite Ha|].
    eapply Forall_impl; [apply (IH _ Hsome)|]. intros q. cbn [heap set_heap].
    rewrite lookup_acquire. by rewrite fmap_is_Some.
  - unfold SkRefCnt_ref in Hsome. rewrite Ha in Hsome. by destruct Hsome.
Qed.

Lemma live_of_fields h l :
  Forall (λ p, is_Some (h !! p)) (filter (λ p, p ≠ nullptr) l) -> Forall (live h) l.
Proof.
  intros Hf. apply Forall_forall. intros q Hq.
  destruct (decide (q = nullptr)) as [->|Hq0]; [by left|]. right.
  rewrite Forall_forall in Hf. apply Hf. by apply list_elem_of_filter.
Qed.

Lemma invoke_defined_live c w :
  is_Some (invoke c w) -> Forall (live (heap w)) (input_handles c) /\ known_bitmap w c.
Proof.
  intros Hsome. destruct (requested c) as [o|] eqn:Hreq.
  - destruct (invoke_acquire_make c o w Hreq) as [Hf Hinv].
    split; [|by destruct c].
    apply live_of_fields. rewrite <- Hf. apply for_each_ref_defined.
    rewrite Hinv in Hsome. unfold bind in Hsome.
    destruct (for_each SkRefCnt_ref (sk_sp_fields o) w) as [[[] w1]|]; [by eexists|].
    by destruct Hsome.
  - destruct c; try done. split; [apply List.Forall_nil|]. cbn [known_bitmap].
    rewrite bitmap_outcome in Hsome. unfold outcome in Hsome. cbn [staged] in Hsome.
    destruct (bitmaps w !! bitmap); [by eexists|by destruct Hsome].
Qed.

(** No validation: a factory call checks none of its handles.  When one of
    its input handles is neither 0 nor the address of a live object (a stale
    or invented address), or when the bitmap handle of the bitmap effect
    denotes no bitmap, the call is undefined, whatever its other arguments
    are: the handle is dereferenced as it comes.  The condition is a
    necessary one only: the heap does not record the static class behind a
    handle, so a live object of the wrong class is not told apart here. *)
Theorem unknown_handle_is_undefined c w :
  (exists q, q ∈ input_handles c /\ q <> 0 /\ heap w !! q = None) \/ ~ known_bitmap w c ->
  invoke c w = None.
Proof.
  intros Hbad. destruct (invoke c w) as [r|] eqn:Hinv; [exfalso|done].
  destruct (invoke_defined_live c w) as [Hl Hb]; [by rewrite Hinv|].
  destruct Hbad as [(q & Hq & Hnz & Hnone)|Hnb]; [|done].
  rewrite Forall_forall in Hl. destruct (Hl q Hq) as [->|Hsome]; [done|].
  rewrite Hnone in Hsome. by destruct Hsome.
Qed.


(** ** The order in which the two arguments are evaluated

    C++ leaves open which of the two [sk_ref_sp] arguments of a factory is
    evaluated first.  The entry points above take the first argument first;
    these are the same three functions with the second argument first. *)
Definition createColorFilterEffect_rtl (colorFilterHandle inputFilterHandle : jlong) : M jlong :=
  let colorFilter := reinterpret_cast colorFilterHandle in
  let inputFilter := reinterpret_cast inputFilterHandle in
  let* arg2 := sk_ref_sp inputFilter in
  let* arg1 := sk_ref_sp colorFilter in
  let* colorFilterImageFilter := SkImageFilters_ColorFilter arg1 arg2 in
  ret (reinterpret_cast (release colorFilterImageFilter)).

Definition createBlendModeEffect_rtl (backgroundImageFilterHandle foregroundImageFilterHandle : jlong)
    (blendmodeHandle : jint) : M jlong :=
  let backgroundFilter := reinterpret_cast backgroundImageFilterHandle in
  let foregroundFilter := reinterpret_cast foregroundImageFilterHandle in
  let blendMode := SkBlendMode_of blendmodeHandle in
  let* arg2 := sk_ref_sp foregroundFilter in
  let* arg1 := sk_ref_sp backgroundFilter in
  let* xfermodeFilter := SkImageFilters_Blend blendMode arg1 arg2 in
  ret (reinterpret_cast (release xfermodeFilter)).

Definition createChainEffect_rtl (outerFilterHandle innerFilterHandle : jlong) : M jlong :=
  let outerImageFilter := reinterpret_cast outerFilterHandle in
  let innerImageFilter := reinterpret_cast innerFilterHandle in
  let* arg2 := sk_ref_sp innerImageFilter in
  let* arg1 := sk_ref_sp outerImageFilter in
  let* composeFilter := SkImageFilters_Compose arg1 arg2 in
  ret (reinterpret_cast (release composeFilter)).

Lemma acquire_comm a b h : acquire a (acquire b h) = acquire b (acquire a h).
Proof.
  change (acquire b h) with (acquire_all [b] h) at 1.
  rewrite <- acquire_all_cons_comm. done.
Qed.

Lemma ref_defined p w : is_Some (SkRefCnt_ref p w) <-> is_Some (heap w !! p).
Proof.
  unfold SkRefCnt_ref. destruct (heap w !! p); split; intros [? ?]; by eauto.
Qed.

(** Two [sk_ref_sp] in a row: the second one sees the same objects. *)
Lemma sk_ref_sp_twice a b w (k : Z -> Z -> M jlong) :
  (let* x := sk_ref_sp a in let* y := sk_ref_sp b in k x y) w
  = (let* y := sk_ref_sp b in let* x := sk_ref_sp a in k x y) w.
Proof.
  unfold sk_ref_sp, SkSafeRef, bind, ret.
  destruct (decide (a = nullptr)) as [->|Ha], (decide (b = nullptr)) as [->|Hb];
    try done.
  destruct (heap w !! a) as [oa|] eqn:Hla, (heap w !! b) as [ob|] eqn:Hlb.
  - rewrite (ref_acquire a w), (ref_acquire b w) by (by eexists).
    rewrite (ref_acquire b), (ref_acquire a)
      by (cbn [heap set_heap]; rewrite lookup_acquire, ?Hla, ?Hlb; by eexists).
    cbn [heap set_heap]. by rewrite !set_heap_set_heap, acquire_comm.
  - rewrite (ref_acquire a w) by (by eexists).
    unfold SkRefCnt_ref. cbn [heap set_heap].
    by rewrite lookup_acquire, Hlb.
  - rewrite (ref_acquire b w) by (by eexists).
    unfold SkRefCnt_ref. cbn [heap set_heap].
    by rewrite Hla, lookup_acquire, Hla.
  - unfold SkRefCnt_ref. by rewrite Hla, Hlb.
Qed.

(** The evaluation order of the two arguments cannot be observed: on every
    world, dangling handles included, each two-handle entry point gives the
    same result (the same handle and the same world, or undefined) with
    either argument evaluated first. *)
Theorem argument_order_is_unobservable a b mode w :
  createColorFilterEffect a b w = createColorFilterEffect_rtl a b w /\
  createBlendModeEffect a b mode w = createBlendModeEffect_rtl a b mode w /\
  createChainEffect a b w = createChainEffect_rtl a b w.
Proof.
  unfold createColorFilterEffect, createColorFilterEffect_rtl,
    createBlendModeEffect, createBlendModeEffect_rtl,
    createChainEffect, createChainEffect_rtl, reinterpret_cast.
  split_and!; apply sk_ref_sp_twice.
Qed.

(** ** Nothing is leaked over a whole run *)

(** The filter graphs are acyclic: the objects can be ranked so that every
    reference goes to an object of smaller rank. *)
Definition ranked (h : gmap Z SkRefCnt) : Prop :=
  exists rk : Z -> nat, forall q o c,
    h !! q = Some o -> c ∈ sk_sp_fields (object o) -> (rk c < rk q)%nat.

(** The objects an owner can reach: the owned addresses, and the fields of
    the objects reached. *)
Inductive reach (h : gmap Z SkRefCnt) (O : gmultiset Z) : Z -> Prop :=
  | reach_owned q : q ∈ O -> reach h O q
  | reach_field p o c :
      reach h O p -> h !! p = Some o -> c ∈ sk_sp_fields (object o) -> reach h O c.

Lemma ranked_empty : ranked ∅.
Proof. exists (λ _, 0%nat). intros q o c Hq. by rewrite lookup_empty in Hq. Qed.

Lemma ranked_survives h h' : ranked h -> survives h h' -> ranked h'.
Proof.
  intros [rk Hrk] Hsv. exists rk. intros q o' c Hq Hc.
  specialize (Hsv q ltac:(by eexists)). unfold same_objects in Hsv.
  rewrite Hq in Hsv. destruct (h !! q) as [o|] eqn:Hq0; [|done].
  injection Hsv as Hobj. apply (Hrk q o c); [done|]. by rewrite <- Hobj.
Qed.

Lemma ranked_alloc h o p :
  ranked h -> closed h -> h !! p = None ->
  Forall (λ f, f <> nullptr /\ is_Some (h !! f)) (sk_sp_fields o) ->
  ranked (<[p := fresh_object o]> h).
Proof.
  intros [rk Hrk] [_ Hcl] Hp Hf.
  set (top := foldr Nat.max 0%nat (rk <$> sk_sp_fields o)).
  assert (Htop : forall c, c ∈ sk_sp_fields o -> (rk c <= top)%nat).
  { unfold top. generalize (sk_sp_fields o). intros l c Hc.
    induction l as [|a l IH]; [by apply elem_of_nil in Hc|].
    cbn. apply elem_of_cons in Hc as [->|Hc]; [lia|]. specialize (IH Hc). lia. }
  assert (Hne : forall c, is_Some (h !! c) -> c <> p).
  { intros c Hc ->. rewrite Hp in Hc. by destruct Hc. }
  exists (λ q, if decide (q = p) then S top else rk q).
  intros q oq c. destruct (decide (q = p)) as [->|Hqp].
  - rewrite lookup_insert_eq. intros [= <-] Hc. cbn [object fresh_object] in Hc.
    rewrite Forall_forall in Hf. destruct (Hf c Hc) as [_ Hlive].
    rewrite decide_False by (by apply Hne). specialize (Htop c Hc). lia.
  - rewrite lookup_insert_ne by done. intros Hq Hc.
    rewrite decide_False by (apply Hne; eauto). by apply (Hrk q oq c).
Qed.

Lemma staged_ranked c w H o :
  staged c w = Some (H, o) -> closed (heap w) -> ranked (heap w) -> ranked H.
Proof.
  intros Hst Hcl Hrk.
  destruct c; cbn [staged requested] in Hst.
  3:{ destruct (bitmaps w !! bitmap) as [px|]; [|done]. injection Hst as <- <-.
      apply ranked_alloc; [done..|apply sk_new_lookup|apply List.Forall_nil]. }
  all: injection Hst as <- <-; apply (ranked_survives (heap w)); [done|];
       intros q _; apply acquire_all_objects.
Qed.

Lemma invoke_ranked c w handle w' :
  closed (heap w) -> ranked (heap w) ->
  Forall (live (heap w)) (input_handles c) ->
  invoke c w = Some (handle, w') -> ranked (heap w').
Proof.
  intros Hcl Hrk Hl Hinv. rewrite invoke_outcome in Hinv by done.
  destruct (outcome_inv _ _ _ _ Hinv) as (H & o & Hst & Hcase).
  destruct (sk_accepts o).
  - destruct Hcase as (_ & _ & Hfresh & ->). cbn [heap set_heap].
    apply ranked_alloc; [by apply (staged_ranked c w H o)|
                         by apply (staged_closed c w H o)|done|
                         by apply (staged_fields c w)].
  - by destruct Hcase as [_ ->].
Qed.

Lemma step_ranked s s' :
  step s s' -> consistent (heap s.1) s.2 -> ranked (heap s.1) -> ranked (heap s'.1).
Proof.
  intros Hstep. destruct Hstep as [w O c j w' Hu Hinv|w O j w' Hfin|w O b px]; cbn.
  - intros Hc Hrk. apply (invoke_ranked c w j w'); [by apply (consistent_closed _ O)|done| |done].
    eapply Forall_impl; [exact Hu|]. intros q. by apply usable_live.
  - intros Hc Hrk. destruct (finalizer_consistent w O j Hc) as (w1 & Hf & _ & _ & Hsv & _).
    rewrite Hfin in Hf. injection Hf as <-. by apply (ranked_survives (heap w)).
  - done.
Qed.

Lemma steps_ranked s s' :
  rtc step s s' -> consistent (heap s.1) s.2 -> ranked (heap s.1) ->
  consistent (heap s'.1) s'.2 /\ ranked (heap s'.1).
Proof.
  induction 1 as [|s1 s2 s3 Hstep _ IH]; [done|].
  intros Hc Hrk. apply IH; [by apply (step_consistent s1)|by apply (step_ranked s1)].
Qed.

(** Whoever is referred to has a holder. *)
Lemma refs_holder (h : gmap Z SkRefCnt) c :
  c ∈ refs_of h -> exists p o, h !! p = Some o /\ c ∈ sk_sp_fields (object o).
Proof.
  induction h as [|i x m Hi IH] using map_ind.
  - rewrite refs_of_empty. multiset_solver.
  - rewrite refs_of_insert_fresh by done. intros Hin.
    apply gmultiset_elem_of_disj_union in Hin as [Hin|Hin].
    + exists i, x. split; [apply lookup_insert_eq|].
      unfold held in Hin. by apply elem_of_list_to_set_disj in Hin.
    + destruct (IH Hin) as (p & o & Hp & Hc). exists p, o. split; [|done].
      rewrite lookup_insert_ne; [done|]. intros ->. by rewrite Hi in Hp.
Qed.

Lemma rank_bound (h : gmap Z SkRefCnt) (rk : Z -> nat) :
  exists B, forall q, is_Some (h !! q) -> (rk q <= B)%nat.
Proof.
  induction h as [|i x m Hi [B IH]] using map_ind.
  - exists 0%nat. intros q Hq. rewrite lookup_empty in Hq. by destruct Hq.
  - exists (Nat.max B (rk i)). intros q Hq.
    destruct (decide (q = i)) as [->|Hqi]; [lia|].
    rewrite lookup_insert_ne in Hq by done. specialize (IH q Hq). lia.
Qed.

Lemma live_is_reachable h O :
  consistent h O -> ranked h -> forall q, is_Some (h !! q) -> reach h O q.
Proof.
  intros Hc [rk Hrk]. destruct (rank_bound h rk) as [B HB].
  assert (Hind : forall k q, is_Some (h !! q) -> (B - rk q <= k)%nat -> reach h O q).
  { induction k as [|k IH]; intros q Hq Hk.
    all: destruct Hq as [o Ho]; pose proof (cons_count _ _ Hc q o Ho) as Hcount.
    all: destruct (decide (q ∈ O)) as [HO|HO]; [by apply reach_owned|].
    all: apply not_elem_of_multiplicity in HO.
    all: assert (Hin : q ∈ refs_of h) by (rewrite elem_of_multiplicity; lia).
    all: destruct (refs_holder h q Hin) as (p & op & Hp & Hf).
    all: pose proof (Hrk p op q Hp Hf) as Hlt.
    all: pose proof (HB p ltac:(by eexists)) as Hpb.
    - lia.
    - apply (reach_field h O p op q); [|done..].
      apply IH; [by eexists|lia]. }
  intros q Hq. apply (Hind (B - rk q)%nat q Hq). lia.
Qed.

Lemma reachable_is_live h O :
  consistent h O -> forall q, reach h O q -> is_Some (h !! q).
Proof.
  intros Hc q Hq. induction Hq as [q HO|p o c _ _ Hp Hf].
  - apply (cons_live _ _ Hc). multiset_solver.
  - destruct (consistent_closed _ _ Hc) as [_ Hcl]. by apply (Hcl p o c).
Qed.

(** No garbage, no dangling handle.  Start from a consistent, acyclic heap
    (the empty one, for instance) and let the managed side call factories on
    handles it owns, run the hook on handles it owns and write to bitmaps, in
    any order.  Then the live objects are exactly the objects that can be
    reached from the handles the managed side still owns. *)
Theorem live_iff_reachable w0 O0 w O :
  consistent (heap w0) O0 -> ranked (heap w0) ->
  rtc step (w0, O0) (w, O) ->
  forall q, is_Some (heap w !! q) <-> reach (heap w) O q.
Proof.
  intros Hc Hrk Hsteps.
  destruct (steps_ranked _ _ Hsteps Hc Hrk) as [Hc' Hrk']. cbn in Hc', Hrk'.
  intros q. split; [by apply live_is_reachable|by apply reachable_is_live].
Qed.

(** No leak: when the managed side has given up every handle, the heap is
    empty again. *)
Theorem all_released_is_empty w0 w :
  heap w0 = ∅ -> rtc step (w0, ∅) (w, ∅) -> heap w = ∅.
Proof.
  intros Hempty Hsteps.
  assert (Hc : consistent (heap w0) ∅) by (rewrite Hempty; apply consistent_empty).
  assert (Hrk : ranked (heap w0)) by (rewrite Hempty; apply ranked_empty).
  destruct (steps_ranked _ _ Hsteps Hc Hrk) as [Hc' Hrk']. cbn in Hc', Hrk'.
  apply map_empty. intros q. destruct (heap w !! q) as [o|] eqn:Hq; [|done].
  pose proof (live_is_reachable _ _ Hc' Hrk' q ltac:(by eexists)) as Hreach.
  exfalso. clear -Hreach. induction Hreach as [q HO|]; [multiset_solver|done].
Qed.

(** ** The order in which the hook runs *)

Lemma consistent_unique h1 h2 O :
  consistent h1 O -> consistent h2 O ->
  (forall q, object <$> h1 !! q = object <$> h2 !! q) -> h1 = h2.
Proof.
  intros Hc1 Hc2 Hobj.
  assert (Hrefs : refs_of h1 = refs_of h2) by (by apply refs_of_same_objects).
  apply map_eq. intros q. specialize (Hobj q).
  destruct (h1 !! q) as [o1|] eqn:H1, (h2 !! q) as [o2|] eqn:H2; try done.
  injection Hobj as Hobj.
  pose proof (cons_count _ _ Hc1 q o1 H1) as Hn1.
  pose proof (cons_count _ _ Hc2 q o2 H2) as Hn2.
  rewrite Hrefs, <- Hn2 in Hn1. apply Pos2Nat.inj in Hn1.
  destruct o1, o2. cbn in *. by subst.
Qed.

Lemma reach_survives_up h h' O q : survives h h' -> reach h' O q -> reach h O q.
Proof.
  intros Hsv Hq. induction Hq as [q HO|p o' c _ IH Hp Hf]; [by apply reach_owned|].
  specialize (Hsv p ltac:(by eexists)). unfold same_objects in Hsv.
  rewrite Hp in Hsv. destruct (h !! p) as [o|] eqn:Hp0; [|done].
  injection Hsv as Hobj. apply (reach_field h O p o c); [done..|]. by rewrite <- Hobj.
Qed.

Lemma reach_survives_down h h' O q :
  survives h h' -> consistent h' O -> reach h O q -> reach h' O q.
Proof.
  intros Hsv Hc Hq. induction Hq as [q HO|p o c _ IH Hp Hf]; [by apply reach_owned|].
  pose proof (reachable_is_live _ _ Hc p IH) as Hlive.
  pose proof (Hsv p Hlive) as Hobj. unfold same_objects in Hobj.
  destruct Hlive as [o' Hp']. rewrite Hp', Hp in Hobj. injection Hobj as Hobj.
  apply (reach_field h' O p o' c); [done..|]. by rewrite Hobj.
Qed.

Lemma finalizer_ranked w O handle w' :
  consistent (heap w) (O ⊎ {[+ handle +]}) -> ranked (heap w) ->
  finalizer handle w = Some (tt, w') ->
  consistent (heap w') O /\ ranked (heap w') /\ survives (heap w) (heap w') /\
  bitmaps w' = bitmaps w.
Proof.
  intros Hc Hrk Hfin.
  destruct (finalizer_consistent w O handle Hc) as (w1 & Hf & Hb & Hc1 & Hsv & _).
  rewrite Hfin in Hf. injection Hf as <-.
  split_and!; [done| |done..]. by apply (ranked_survives (heap w)).
Qed.

(** The collector may run the hooks in any order.  For two handles the
    managed side owns, in a consistent acyclic heap, running the hook on the
    first and then on the second leaves exactly the world that running it on
    the second and then on the first leaves; both orders return. *)
Theorem release_order_is_irrelevant w O a b :
  consistent (heap w) ((O ⊎ {[+ a +]}) ⊎ {[+ b +]}) -> ranked (heap w) ->
  exists w',
    (do* finalizer a in finalizer b) w = Some (tt, w') /\
    (do* finalizer b in finalizer a) w = Some (tt, w').
Proof.
  intros Hc Hrk.
  assert (Hca : consistent (heap w) ((O ⊎ {[+ b +]}) ⊎ {[+ a +]})).
  { replace ((O ⊎ {[+ b +]}) ⊎ {[+ a +]}) with ((O ⊎ {[+ a +]}) ⊎ {[+ b +]})
      by multiset_solver. done. }
  destruct (finalizer_consistent w _ a Hca) as (wa & Hfa & _).
  destruct (finalizer_ranked w _ a wa Hca Hrk Hfa) as (Hc_a & Hrk_a & Hsv_a & Hb_a).
  destruct (finalizer_consistent wa _ b Hc_a) as (wab & Hfab & _).
  destruct (finalizer_ranked wa _ b wab Hc_a Hrk_a Hfab) as (Hc_ab & Hrk_ab & Hsv_ab & Hb_ab).
  destruct (finalizer_consistent w _ b Hc) as (wb & Hfb & _).
  destruct (finalizer_ranked w _ b wb Hc Hrk Hfb) as (Hc_b & Hrk_b & Hsv_b & Hb_b).
  destruct (finalizer_consistent wb _ a Hc_b) as (wba & Hfba & _).
  destruct (finalizer_ranked wb _ a wba Hc_b Hrk_b Hfba) as (Hc_ba & Hrk_ba & Hsv_ba & Hb_ba).
  pose proof (survives_trans _ _ _ Hsv_a Hsv_ab) as Hs1.
  pose proof (survives_trans _ _ _ Hsv_b Hsv_ba) as Hs2.
  assert (Hcross : forall h1 h2, consistent h1 O -> ranked h1 -> consistent h2 O ->
            survives (heap w) h1 -> survives (heap w) h2 ->
            forall q, is_Some (h1 !! q) -> object <$> h1 !! q = object <$> h2 !! q).
  { intros h1 h2 Hc1 Hrk1 Hc2 Hsv1 Hsv2 q Hq.
    pose proof (live_is_reachable _ _ Hc1 Hrk1 q Hq) as Hr1.
    pose proof (reach_survives_up _ _ _ _ Hsv1 Hr1) as Hr.
    pose proof (reach_survives_down _ _ _ _ Hsv2 Hc2 Hr) as Hr2.
    pose proof (reachable_is_live _ _ Hc2 q Hr2) as Hq2.
    rewrite (Hsv1 q Hq), (Hsv2 q Hq2). done. }
  assert (Heq : heap wab = heap wba).
  { apply (consistent_unique _ _ O); [done..|]. intros q.
    destruct (heap wab !! q) as [o1|] eqn:H1.
    - rewrite <- H1. apply Hcross; [done..|]. by rewrite H1.
    - destruct (heap wba !! q) as [o2|] eqn:H2; [|done].
      pose proof (Hcross (heap wba) (heap wab) Hc_ba Hrk_ba Hc_ab Hs2 Hs1 q
                    ltac:(by rewrite H2)) as Habs.
      by rewrite H1, H2 in Habs. }
  assert (Hw : wab = wba).
  { assert (Hbm : bitmaps wab = bitmaps wba) by (by rewrite Hb_ab, Hb_ba, Hb_a, Hb_b).
    clear -Heq Hbm. destruct wab, wba. cbn in *. by subst. }
  exists wab. unfold bind. rewrite Hfa, Hfb, Hfab, Hfba. by rewrite Hw.
Qed.

(** ** Chains of chains *)

Lemma filterImage_S n h q x :
  filterImage (S n) h q x =
  if decide (q = nullptr) then Some x else
  match h !! q with
  | None => None
  | Some o =>
    match object o with
    | SkImage _ | SkColorFilter _ => None
    | SkOffsetImageFilter dx dy input =>
        raster_offset dx dy <$> filterImage n h input x
    | SkBlurImageFilter sx sy tm input =>
        raster_blur sx sy tm <$> filterImage n h input x
    | SkImageImageFilter img s d q =>
        match object <$> h !! img with
        | Some (SkImage px) => Some (raster_image px s d q)
        | _ => None
        end
    | SkColorFilterImageFilter cf input =>
        match filterImage n h input x with
        | None => None
        | Some r =>
          if decide (cf = nullptr) then Some r else
          match object <$> h !! cf with
          | Some (SkColorFilter c) => Some (raster_color c r)
          | _ => None
          end
        end
    | SkBlendImageFilter m bg fg =>
        match filterImage n h bg x, filterImage n h fg x with
        | Some a, Some b => Some (raster_blend m a b)
        | _, _ => None
        end
    | SkComposeImageFilter outer inner =>
        match filterImage n h inner x with
        | Some r => filterImage n h outer r
        | None => None
        end
    end
  end.
Proof. reflexivity. Qed.

(** More fuel does not change a result. *)
Lemma filterImage_more_fuel h n : forall q x r,
  filterImage n h q x = Some r -> filterImage (S n) h q x = Some r.
Proof.
  induction n as [|n IH]; intros q x r.
  - destruct (decide (q = nullptr)) as [->|Hq]; [by rewrite !filterImage_null|].
    cbn. by rewrite decide_False.
  - rewrite (filterImage_S (S n)), (filterImage_S n).
    destruct (decide (q = nullptr)) as [->|Hq]; [done|].
    destruct (h !! q) as [o|]; [|done].
    destruct (object o) as [| |dx dy i|sx sy tm i|img s d qq|cf i|m bg fg|outer inner];
      try done.
    + destruct (filterImage n h i x) as [y|] eqn:Hy; [|done].
      by rewrite (IH _ _ _ Hy).
    + destruct (filterImage n h i x) as [y|] eqn:Hy; [|done].
      by rewrite (IH _ _ _ Hy).
    + destruct (filterImage n h i x) as [y|] eqn:Hy; [|done].
      by rewrite (IH _ _ _ Hy).
    + destruct (filterImage n h bg x) as [a|] eqn:Ha; [|done].
      destruct (filterImage n h fg x) as [b|] eqn:Hb; [|done].
      by rewrite (IH _ _ _ Ha), (IH _ _ _ Hb).
    + destruct (filterImage n h inner x) as [y|] eqn:Hy; [|done].
      rewrite (IH _ _ _ Hy). apply IH.
Qed.

Lemma chain_eval w outer inner handle w' :
  closed (heap w) -> live (heap w) outer -> live (heap w) inner ->
  createChainEffect outer inner w = Some (handle, w') -> handle <> 0 ->
  closed (heap w') /\ is_Some (heap w' !! handle) /\
  (forall q, live (heap w) q -> live (heap w') q) /\
  (forall n q x, live (heap w) q ->
     filterImage n (heap w') q x = filterImage n (heap w) q x) /\
  (forall n x, filterImage (S n) (heap w') handle x
     = filterImage n (heap w) inner x ≫= filterImage n (heap w) outer).
Proof.
  intros Hcl Ho Hi Hinv Hnz.
  set (c := nativeCreateChainEffect outer inner).
  assert (Hl : Forall (live (heap w)) (input_handles c)) by live_args.
  change (invoke c w = Some (handle, w')) in Hinv.
  destruct (invoke_fresh _ _ _ _ Hl Hinv Hnz) as (_ & Hnew & _).
  pose proof (invoke_node c w handle w' _ Hl Hinv Hnz eq_refl) as Hnode.
  destruct (invoke_closed c w handle w' Hcl Hl Hinv) as [Hcl' Hsv].
  pose proof (filterImage_after c w handle w' Hcl Hl Hinv) as Hafter.
  split_and!; [done..| |done|].
  - intros q [->|Hq]; [by left|]. right.
    specialize (Hsv q Hq). unfold same_objects in Hsv.
    destruct Hq as [o Hq]. rewrite Hq in Hsv.
    destruct (heap w' !! q); [by eexists|done].
  - intros n x. rewrite (filterImage_compose _ _ _ _ _ _ Hnode Hnz).
    rewrite (Hafter n inner x Hi).
    destruct (filterImage n (heap w) inner x) as [r|]; [|done]. cbn.
    by apply Hafter.
Qed.

(** Chaining is associative.  For three filters A, B, C whose effects are
    defined, the chain of A with (the chain of B with C) and the chain of
    (the chain of A with B) with C both evaluate as A(B(C(x))). *)
Theorem chain_is_associative w A B C bc w1 l w2 ab v1 r v2 :
  closed (heap w) -> live (heap w) A -> live (heap w) B -> live (heap w) C ->
  createChainEffect B C w = Some (bc, w1) -> bc <> 0 ->
  createChainEffect A bc w1 = Some (l, w2) -> l <> 0 ->
  createChainEffect A B w = Some (ab, v1) -> ab <> 0 ->
  createChainEffect ab C v1 = Some (r, v2) -> r <> 0 ->
  forall n x c b res,
    filterImage n (heap w) C x = Some c ->
    filterImage n (heap w) B c = Some b ->
    filterImage n (heap w) A b = Some res ->
    filterImage (S (S n)) (heap w2) l x = Some res /\
    filterImage (S (S n)) (heap v2) r x = Some res.
Proof.
  intros Hcl HA HB HC Hbc Hbc0 Hl Hl0 Hab Hab0 Hr Hr0 n x c b res HCx HBc HAb.
  destruct (chain_eval w B C bc w1 Hcl HB HC Hbc Hbc0)
    as (Hcl1 & Hbc_live & Hlive1 & Hsame1 & Heval1).
  destruct (chain_eval w1 A bc l w2 Hcl1 (Hlive1 A HA) ltac:(by right) Hl Hl0)
    as (_ & _ & _ & _ & Heval2).
  destruct (chain_eval w A B ab v1 Hcl HA HB Hab Hab0)
    as (Hclv & Hab_live & Hlivev & Hsamev & Hevalv).
  destruct (chain_eval v1 ab C r v2 Hclv ltac:(by right) (Hlivev C HC) Hr Hr0)
    as (_ & _ & _ & _ & Hevalr).
  split.
  - rewrite Heval2, Heval1, HCx. cbn [mbind option_bind]. rewrite HBc.
    cbn [mbind option_bind].
    rewrite Hsame1 by done. by apply filterImage_more_fuel.
  - rewrite Hevalr. rewrite Hsamev by done.
    rewrite (filterImage_more_fuel _ _ _ _ _ HCx). cbn [mbind option_bind].
    rewrite Hevalv, HBc. done.
Qed.

(** The handle 0 is a unit of chaining: the chain of a filter with an absent
    inner or an absent outer filter evaluates as the filter itself. *)
Theorem chain_with_absent_side w A j1 w1 j2 w2 :
  closed (heap w) -> live (heap w) A ->
  createChainEffect A 0 w = Some (j1, w1) -> j1 <> 0 ->
  createChainEffect 0 A w = Some (j2, w2) -> j2 <> 0 ->
  forall n x,
    filterImage (S n) (heap w1) j1 x = filterImage n (heap w) A x /\
    filterImage (S n) (heap w2) j2 x = filterImage n (heap w) A x.
Proof.
  intros Hcl HA H1 Hnz1 H2 Hnz2 n x.
  destruct (chain_eval w A 0 j1 w1 Hcl HA ltac:(by left) H1 Hnz1) as (_ & _ & _ & _ & He1).
  destruct (chain_eval w 0 A j2 w2 Hcl ltac:(by left) HA H2 Hnz2) as (_ & _ & _ & _ & He2).
  rewrite He1, He2, !filterImage_null. split; [done|].
  destruct (filterImage n (heap w) A x) as [y|]; [|done]. cbn [mbind option_bind].
  apply filterImage_null.
Qed.

(** ** The registration table

    [gRenderEffectMethods] binds each native method of
    android.graphics.RenderEffect (a name and a JNI type signature) to a C
    function.  The virtual machine calls the function with [JNIEnv*], the
    receiver and the arguments the signature announces; nothing checks that
    the C function has those parameters. *)

(** The argument types that occur in the table, by their letter in a JNI
    signature: F is [jfloat], J is [jlong], I is [jint]. *)
Inductive jtype := JNI_F | JNI_J | JNI_I.

Inductive jvalue :=
  | jvalue_f (f : jfloat)
  | jvalue_j (j : jlong)
  | jvalue_i (i : jint).

Definition jtype_of (v : jvalue) : jtype :=
  match v with
  | jvalue_f _ => JNI_F
  | jvalue_j _ => JNI_J
  | jvalue_i _ => JNI_I
  end.

(** A C function behind a [void*]: its parameters after [JNIEnv*] and
    [jobject], one by one with the type each is declared with, then its
    body. *)
Inductive native_fn :=
  | fn_body (body : M jlong)
  | fn_jfloat (f : jfloat -> native_fn)
  | fn_jlong (f : jlong -> native_fn)
  | fn_jint (f : jint -> native_fn).

(** Calling it with machine arguments; undefined when the arguments are not
    what the function declares. *)
Fixpoint call_native (fn : native_fn) (args : list jvalue) : option (M jlong) :=
  match fn, args with
  | fn_body body, [] => Some body
  | fn_jfloat f, jvalue_f x :: args => call_native (f x) args
  | fn_jlong f, jvalue_j x :: args => call_native (f x) args
  | fn_jint f, jvalue_i x :: args => call_native (f x) args
  | _, _ => None
  end.

Record JNINativeMethod := {
  name : string;
  signature : string;
  fnPtr : native_fn
}.

Section Registration.
(** The address of [RenderEffect_safeUnref] in the loaded library. *)
Variable RenderEffect_safeUnref_address : jlong.

(** [getRenderEffectFinalizer] as the native method it is registered as: it
    returns that address as a [jlong]. *)
Definition nativeGetFinalizer : M jlong := ret RenderEffect_safeUnref_address.

Definition gRenderEffectMethods : list JNINativeMethod := [
  {| name := "nativeGetFinalizer"; signature := "()J";
     fnPtr := fn_body nativeGetFinalizer |};
  {| name := "nativeCreateOffsetEffect"; signature := "(FFJ)J";
     fnPtr := fn_jfloat (λ offsetX, fn_jfloat (λ offsetY, fn_jlong (λ inputFilterHandle,
              fn_body (createOffsetEffect offsetX offsetY inputFilterHandle)))) |};
  {| name := "nativeCreateBlurEffect"; signature := "(FFJI)J";
     fnPtr := fn_jfloat (λ radiusX, fn_jfloat (λ radiusY, fn_jlong (λ inputFilterHandle,
              fn_jint (λ edgeTreatment,
              fn_body (createBlurEffect radiusX radiusY inputFilterHandle edgeTreatment))))) |};
  {| name := "nativeCreateBitmapEffect"; signature := "(JFFFFFFFF)J";
     fnPtr := fn_jlong (λ bitmapHandle,
              fn_jfloat (λ srcLeft, fn_jfloat (λ srcTop,
              fn_jfloat (λ srcRight, fn_jfloat (λ srcBottom,
              fn_jfloat (λ dstLeft, fn_jfloat (λ dstTop,
              fn_jfloat (λ dstRight, fn_jfloat (λ dstBottom,
              fn_body (createBitmapEffect bitmapHandle srcLeft srcTop srcRight srcBottom
                                          dstLeft dstTop dstRight dstBottom)))))))))) |};
  {| name := "nativeCreateColorFilterEffect"; signature := "(JJ)J";
     fnPtr := fn_jlong (λ colorFilterHandle, fn_jlong (λ inputFilterHandle,
              fn_body (createColorFilterEffect colorFilterHandle inputFilterHandle))) |};
  {| name := "nativeCreateBlendModeEffect"; signature := "(JJI)J";
     fnPtr := fn_jlong (λ backgroundImageFilterHandle, fn_jlong (λ foregroundImageFilterHandle,
              fn_jint (λ blendmodeHandle,
              fn_body (createBlendModeEffect backgroundImageFilterHandle
                                             foregroundImageFilterHandle blendmodeHandle)))) |};
  {| name := "nativeCreateChainEffect"; signature := "(JJ)J";
     fnPtr := fn_jlong (λ outerFilterHandle, fn_jlong (λ innerFilterHandle,
              fn_body (createChainEffect outerFilterHandle innerFilterHandle))) |}
].

(** [NELEM(gRenderEffectMethods)] *)
Definition NELEM_gRenderEffectMethods : nat := length gRenderEffectMethods.

(** A JNI method signature, "(" parameter types ")" return type, for the
    types above; [None] on anything else. *)
Definition jtype_of_letter (a : Ascii.ascii) : option jtype :=
  if Ascii.eqb a "F"%char then Some JNI_F
  else if Ascii.eqb a "J"%char then Some JNI_J
  else if Ascii.eqb a "I"%char then Some JNI_I
  else None.

Fixpoint parse_params (s : string) : option (list jtype * string) :=
  match s with
  | EmptyString => None
  | String a rest =>
      if Ascii.eqb a ")"%char then Some ([], rest)
      else match jtype_of_letter a, parse_params rest with
           | Some t, Some (ts, after) => Some (t :: ts, after)
           | _, _ => None
           end
  end.

Definition parse_signature (s : string) : option (list jtype * jtype) :=
  match s with
  | String a rest =>
      if Ascii.eqb a "("%char then
        match parse_params rest with
        | Some (ts, String r EmptyString) =>
            match jtype_of_letter r with Some t => Some (ts, t) | None => None end
        | _ => None
        end
      else None
  | EmptyString => None
  end.

(** The row the virtual machine finds for a name: the first one. *)
Definition find_method (nm : string) : option JNINativeMethod :=
  List.find (λ m, String.eqb (name m) nm) gRenderEffectMethods.

(** The parameter list a C function declares. *)
Inductive declares : native_fn -> list jtype -> Prop :=
  | declares_body body : declares (fn_body body) []
  | declares_jfloat f ts : (forall x, declares (f x) ts) -> declares (fn_jfloat f) (JNI_F :: ts)
  | declares_jlong f ts : (forall x, declares (f x) ts) -> declares (fn_jlong f) (JNI_J :: ts)
  | declares_jint f ts : (forall x, declares (f x) ts) -> declares (fn_jint f) (JNI_I :: ts).

Lemma call_native_declared fn ts :
  declares fn ts ->
  forall args, is_Some (call_native fn args) <-> jtype_of <$> args = ts.
Proof.
  induction 1 as [body|f ts _ IH|f ts _ IH|f ts _ IH]; intros args.
  all: destruct args as [|[x|x|x] args]; cbn.
  all: try (split; [by intros [? ?]|done]).
  all: rewrite IH; split; [by intros ->|by intros [= ->]].
Qed.

(** The table is type-correct.  For every row, the signature is well formed
    and announces the return type [jlong]; the C function of the row is
    defined on an argument list exactly when the list has the types the
    signature announces (same number, same types, same order); and looking
    the row's name up finds this row, so no row hides another. *)
Theorem registered_signatures_fit m :
  m ∈ gRenderEffectMethods ->
  exists params,
    parse_signature (signature m) = Some (params, JNI_J) /\
    (forall args, is_Some (call_native (fnPtr m) args) <-> jtype_of <$> args = params) /\
    find_method (name m) = Some m.
Proof.
  unfold gRenderEffectMethods. intros Hm.
  repeat (apply elem_of_cons in Hm as [->|Hm]); [..|by apply elem_of_nil in Hm].
  all: eexists; split_and!; [reflexivity| |reflexivity].
  all: apply call_native_declared; cbn [fnPtr]; repeat (constructor; intros).
Qed.

(** The factory rows, as the managed side calls them: the name of the
    method and the arguments in the order of its Java declaration. *)
Definition method_name (c : factory_call) : string :=
  match c with
  | nativeCreateOffsetEffect _ _ _ => "nativeCreateOffsetEffect"
  | nativeCreateBlurEffect _ _ _ _ => "nativeCreateBlurEffect"
  | nativeCreateBitmapEffect _ _ _ => "nativeCreateBitmapEffect"
  | nativeCreateColorFilterEffect _ _ => "nativeCreateColorFilterEffect"
  | nativeCreateBlendModeEffect _ _ _ => "nativeCreateBlendModeEffect"
  | nativeCreateChainEffect _ _ => "nativeCreateChainEffect"
  end.

Definition marshal (c : factory_call) : list jvalue :=
  match c with
  | nativeCreateOffsetEffect dx dy input => [jvalue_f dx; jvalue_f dy; jvalue_j input]
  | nativeCreateBlurEffect rx ry input e =>
      [jvalue_f rx; jvalue_f ry; jvalue_j input; jvalue_i e]
  | nativeCreateBitmapEffect b s d =>
      [jvalue_j b; jvalue_f (fLeft s); jvalue_f (fTop s); jvalue_f (fRight s);
       jvalue_f (fBottom s); jvalue_f (fLeft d); jvalue_f (fTop d); jvalue_f (fRight d);
       jvalue_f (fBottom d)]
  | nativeCreateColorFilterEffect cf input => [jvalue_j cf; jvalue_j input]
  | nativeCreateBlendModeEffect bg fg m => [jvalue_j bg; jvalue_j fg; jvalue_i m]
  | nativeCreateChainEffect outer inner => [jvalue_j outer; jvalue_j inner]
  end.

(** [invoke] is the table: a factory call by name, with its arguments
    marshalled, runs the entry point [invoke] runs. *)
Lemma invoke_is_the_table c :
  exists m, find_method (method_name c) = Some m /\
            call_native (fnPtr m) (marshal c) = Some (invoke c).
Proof. destruct c; eexists; split; reflexivity. Qed.

End Registration.

(** ** The caller's contract is enough *)

(** Memory safety under the contract.  Start from a consistent heap and let
    the managed side do what it may do ([step]).  Then, whatever happened
    before, every factory call on handles it owns (or 0, and with a bitmap
    handle that denotes a bitmap) returns, and the hook on every handle it
    owns returns: no call of a run that keeps the contract is undefined. *)
Theorem contract_is_enough w0 O0 w O :
  consistent (heap w0) O0 -> rtc step (w0, O0) (w, O) ->
  (forall c, Forall (usable O) (input_handles c) -> known_bitmap w c ->
     exists handle w', invoke c w = Some (handle, w')) /\
  (forall handle, handle ∈ O -> exists w', finalizer handle w = Some (tt, w')).
Proof.
  intros Hc Hsteps.
  pose proof (steps_consistent _ _ Hsteps Hc) as Hc'. cbn in Hc'.
  split.
  - intros c Hu Hb.
    assert (Hl : Forall (live (heap w)) (input_handles c)).
    { eapply Forall_impl; [exact Hu|]. intros q. by apply usable_live. }
    rewrite invoke_outcome by done. unfold outcome.
    assert (Hst : is_Some (staged c w)).
    { destruct c; cbn [staged requested]; try by eexists.
      cbn [known_bitmap] in Hb. destruct Hb as [px ->]. by eexists. }
    destruct Hst as [[H o] ->]. destruct (sk_accepts o); by eexists _, _.
  - intros handle Hin.
    assert (HO : exists O', O = O' ⊎ {[+ handle +]}).
    { exists (O ∖ {[+ handle +]}). multiset_solver. }
    destruct HO as [O' ->].
    destruct (finalizer_consistent w O' handle Hc') as (w' & Hf & _). by exists w'.
Qed.

End RenderEffect.

(** * A small library to run the entry points on

    A stand-in for the graphics library, used by the examples below only:
    an image is one grey level, an offset adds one to it, a blur doubles it,
    an image node draws its pixels, a colour filter adds its constant, blend
    mode 3 (source-over) shows the foreground unless it is 0 and every other
    mode adds the two layers.  New objects get the address after the largest
    one in use; the library declines a blur whose tile mode is not one of
    0..3; the sigma of a positive finite radius is half the radius. *)

Definition demo_raster : Raster := {|
  image := Z;
  color_transform := Z;
  raster_offset := λ _ _ i, i + 1;
  raster_blur := λ _ _ _ i, 2 * i;
  raster_image := λ px _ _ _, px;
  raster_color := λ c i, c + i;
  raster_blend := λ m bg fg,
    match m with
    | SkBlendMode_of 3 => if fg =? 0 then bg else fg
    | _ => bg + fg
    end
|}.

Definition demo_new (used : gset Z) : Z := 1 + foldr Z.max 0 (elements used).

Definition demo_accepts (o : @SkObject demo_raster) : bool :=
  match o with
  | SkBlurImageFilter _ _ (SkTileMode_of v) _ => (0 <=? v) && (v <=? 3)
  | _ => true
  end.

Definition demo_sigma (radius : jfloat) : jfloat :=
  match radius with
  | S754_finite false m e => S754_finite false m (e - 1)
  | _ => S754_zero false
  end.

Lemma foldr_max_bound (l : list Z) : 0 <= foldr Z.max 0 l /\ forall x, x ∈ l -> x <= foldr Z.max 0 l.
Proof.
  induction l as [|a l [IH0 IH]]; cbn.
  - split; [lia|]. intros x Hx. by apply elem_of_nil in Hx.
  - split; [lia|]. intros x [->|Hx]%elem_of_cons; [lia|]. specialize (IH x Hx). lia.
Qed.

Lemma demo_new_fresh used : demo_new used ∉ used.
Proof.
  intros Hin. apply elem_of_elements in Hin.
  apply (proj2 (foldr_max_bound (elements used))) in Hin. unfold demo_new in Hin. lia.
Qed.

Lemma demo_new_nonnull used : demo_new used <> nullptr.
Proof.
  pose proof (proj1 (foldr_max_bound (elements used))). unfold demo_new, nullptr. lia.
Qed.

Definition demo_library : @SkLibrary demo_raster := {|
  sk_new := demo_new;
  sk_new_fresh := demo_new_fresh;
  sk_new_nonnull := demo_new_nonnull;
  sk_accepts := demo_accepts;
  convertRadiusToSigma := demo_sigma
|}.

Definition empty_world : @world demo_raster := {| heap := ∅; bitmaps := ∅ |}.

(** The result of a call that is known to return. *)
Definition exec (m : @M demo_raster jlong) (w : @world demo_raster) : jlong * @world demo_raster :=
  match m w with
  | Some r => r
  | None => (0, w)
  end.

Definition call (c : factory_call) := @invoke demo_raster demo_library c.

Definition float_5 : jfloat := S754_finite false 5 0.
Definition float_minus_3 : jfloat := S754_finite true 3 0.
Definition unit_rect : SkRect := MakeLTRB (S754_zero false) (S754_zero false) float_5 float_5.

Definition offset_call := nativeCreateOffsetEffect float_5 float_minus_3 0.
Definition world_1 := (exec (call offset_call) empty_world).2.
Definition handle_1 := (exec (call offset_call) empty_world).1.

Definition blur_call := nativeCreateBlurEffect float_5 float_5 0 0.
Definition world_2 := (exec (call blur_call) world_1).2.
Definition handle_2 := (exec (call blur_call) world_1).1.

Definition chain_call := nativeCreateChainEffect handle_1 handle_2.
Definition world_3 := (exec (call chain_call) world_2).2.
Definition handle_3 := (exec (call chain_call) world_2).1.

Ltac args_ok :=
  repeat (apply List.Forall_cons; [first [by left | by right; eexists | by right]|]);
  apply List.Forall_nil.

Example demo_handles : (handle_1, handle_2, handle_3) = (1, 2, 3).
Proof. reflexivity. Qed.

Lemma closed_empty_world : closed (heap empty_world).
Proof.
  split; [done|]. intros q o c Hq. cbn in Hq. by rewrite lookup_empty in Hq.
Qed.

Lemma closed_world_2 : closed (heap world_2).
Proof.
  assert (H1 : closed (heap world_1)).
  { apply (@invoke_closed demo_raster demo_library offset_call empty_world handle_1 world_1);
      [apply closed_empty_world|args_ok|reflexivity]. }
  apply (@invoke_closed demo_raster demo_library blur_call world_1 handle_2 world_2);
    [exact H1|args_ok|reflexivity].
Qed.

(** C8, on the offset effect of the specification's scenario
    (dx = 5.0, dy = -3.0, no input) in the empty world. *)
Lemma absent_input_is_safe_example :
  exists handle w', call offset_call empty_world = Some (handle, w') /\
    ((handle = 0 /\ w' = empty_world) \/
     (handle <> 0 /\ exists o, @requested demo_raster demo_library offset_call = Some o /\
                              heap w' !! handle = Some (fresh_object o))).
Proof.
  apply (@absent_input_is_safe demo_raster demo_library offset_call empty_world).
  - apply list_elem_of_here.
  - args_ok.
Defined.

(** C7, on a blur whose tile mode (7) the library declines. *)
Lemma construction_failure_is_null_example :
  call (nativeCreateBlurEffect float_5 float_5 handle_1 7) world_1 = Some (0, world_1) /\
  forall n x, @filterImage demo_raster n (heap world_1) 0 x = Some x.
Proof.
  exact (@construction_failure_is_null demo_raster demo_library
           (nativeCreateBlurEffect float_5 float_5 handle_1 7) world_1
           ltac:(args_ok)).
Defined.

(** C5, on the offset effect in the empty world. *)
Lemma handles_nonzero_and_distinct_example :
  exists handle w', call offset_call empty_world = Some (handle, w') /\
    handle <> 0 /\ heap empty_world !! handle = None /\ is_Some (heap w' !! handle) /\
    forall w'' c2 handle2 w2,
      is_Some (heap w'' !! handle) ->
      Forall (live (heap w'')) (input_handles c2) ->
      call c2 w'' = Some (handle2, w2) -> handle2 <> 0 -> handle2 <> handle.
Proof.
  apply (@handles_nonzero_and_distinct demo_raster demo_library offset_call empty_world).
  - args_ok.
  - eexists _, _. split; reflexivity.
Defined.

(** C6, on the blend (source-over) of the blur node over the offset
    node. *)
Definition blend_call := nativeCreateBlendModeEffect handle_1 handle_2 3.

Lemma inputs_are_readonly_example :
  exists handle w', call blend_call world_2 = Some (handle, w') /\
    handle <> 0 /\
    Forall (λ q, q <> handle) (input_handles blend_call) /\
    heap world_2 !! handle = None /\
    (exists o, heap w' !! handle = Some (fresh_object o) /\
       Forall (λ q, q = 0 \/ q ∈ sk_sp_fields o) (input_handles blend_call)) /\
    forall q og, heap world_2 !! q = Some og ->
      heap w' !! q = Some (add_refs (uses blend_call q) og).
Proof.
  apply (@inputs_are_readonly demo_raster demo_library blend_call world_2).
  - args_ok.
  - eexists _, _. split; reflexivity.
Defined.

(** C3, on two blurs of radius 5.0 built in different worlds, with
    different inputs and edge treatments. *)
Definition blur_call' := nativeCreateBlurEffect float_5 float_5 handle_1 2.

Lemma blur_sigma_is_a_function_of_radius_example :
  exists sx1 sy1 sx2 sy2,
    blur_sigmas (heap world_2) handle_2 = Some (sx1, sy1) /\
    blur_sigmas (heap (exec (call blur_call') world_3).2) (exec (call blur_call') world_3).1
      = Some (sx2, sy2) /\
    sx1 = demo_sigma float_5 /\ sy1 = demo_sigma float_5 /\
    (float_5 = float_5 -> sx1 = sx2) /\ (float_5 = float_5 -> sy1 = sy2) /\
    (float_5 = float_5 -> sx1 = sy2) /\ (float_5 = float_5 -> sy1 = sx2).
Proof.
  apply (@blur_sigma_is_a_function_of_radius demo_raster demo_library
           world_1 float_5 float_5 0 0 handle_2 world_2
           world_3 float_5 float_5 handle_1 2).
  - by left.
  - right. by eexists.
  - reflexivity.
  - done.
  - reflexivity.
  - done.
Defined.

(** C9, on a bitmap of grey level 7 that is overwritten twice after the
    effect was built. *)
Definition bitmap_world : @world demo_raster := {| heap := ∅; bitmaps := {[ 40 := 7 ]} |}.
Definition bitmap_call := nativeCreateBitmapEffect 40 unit_rect unit_rect.

Definition later_writes : list (Z * @image demo_raster) := [(40, 0); (40, 99)].

Lemma bitmap_effect_is_snapshot_example :
  @filterImage demo_raster 1
    (heap (mutate later_writes (exec (call bitmap_call) bitmap_world).2))
    (exec (call bitmap_call) bitmap_world).1 5
    = Some (@raster_image demo_raster 7 unit_rect unit_rect kLow_SkFilterQuality) /\
  @filterImage demo_raster 1
    (heap (mutate later_writes (exec (call bitmap_call) bitmap_world).2))
    (exec (call bitmap_call) bitmap_world).1 5
    = @filterImage demo_raster 1 (heap (exec (call bitmap_call) bitmap_world).2)
        (exec (call bitmap_call) bitmap_world).1 5.
Proof.
  apply (@bitmap_effect_is_snapshot demo_raster demo_library bitmap_world 40
           unit_rect unit_rect 7).
  - reflexivity.
  - reflexivity.
  - done.
Defined.

(** The pixels the node draws are those of the call (7), not the last ones
    written (99). *)
Example bitmap_overwritten :
  @filterImage demo_raster 1
    (heap (mutate later_writes (exec (call bitmap_call) bitmap_world).2))
    (exec (call bitmap_call) bitmap_world).1 5 = Some 7.
Proof. reflexivity. Qed.

(** C1, on the chain of the offset node (outer) and the blur node
    (inner). *)
Lemma chain_is_composition_example :
  (heap world_2 !! handle_3 = None /\ handle_3 <> handle_1 /\ handle_3 <> handle_2 /\
   heap world_3 !! handle_3 = Some (fresh_object (SkComposeImageFilter handle_1 handle_2))) /\
  (forall n x,
     @filterImage demo_raster (S n) (heap world_3) handle_3 x
       = filterImage n (heap world_2) handle_2 x ≫= filterImage n (heap world_2) handle_1) /\
  (forall A handle2 w2,
     live (heap world_3) A ->
     @createChainEffect demo_raster demo_library A handle_3 world_3 = Some (handle2, w2) ->
     handle2 <> 0 ->
     forall n x,
       @filterImage demo_raster (S (S n)) (heap w2) handle2 x
         = (filterImage n (heap world_2) handle_2 x ≫= filterImage n (heap world_2) handle_1)
             ≫= filterImage (S n) (heap world_3) A).
Proof.
  apply (@chain_is_composition demo_raster demo_library world_2 handle_1 handle_2
           handle_3 world_3).
  - apply closed_world_2.
  - right. by eexists.
  - right. by eexists.
  - reflexivity.
  - done.
Defined.

(** The chain offset(blur(x)) on the grey level 10: 2 * 10 + 1. *)
Example chain_evaluates_inner_first :
  @filterImage demo_raster 2 (heap world_3) handle_3 10 = Some 21.
Proof. reflexivity. Qed.

(** C2, on source-over (mode 3) with the source image as background and
    the offset node as foreground, on the grey level 10. *)
Definition blend_over := exec (call (nativeCreateBlendModeEffect 0 handle_1 3)) world_2.
Definition blend_under := exec (call (nativeCreateBlendModeEffect handle_1 0 3)) world_2.

Lemma blend_is_order_sensitive_example :
  @filterImage demo_raster 2 (heap blend_over.2) blend_over.1 10 = Some 11 /\
  @filterImage demo_raster 2 (heap blend_under.2) blend_under.1 10 = Some 10 /\
  ((11 : Z) <> 10 ->
   @filterImage demo_raster 2 (heap blend_over.2) blend_over.1 10
     <> @filterImage demo_raster 2 (heap blend_under.2) blend_under.1 10).
Proof.
  apply (@blend_is_order_sensitive demo_raster demo_library world_2 0 handle_1 3
           blend_over.1 blend_over.2 blend_under.1 blend_under.2)
    with (n := 1%nat) (x := 10) (a := 10) (b := 11).
  - apply closed_world_2.
  - by left.
  - right. by eexists.
  - reflexivity.
  - done.
  - reflexivity.
  - done.
  - reflexivity.
  - reflexivity.
Defined.

(** C4, on the offset node: it is built first, then used as the outer
    input of a chain, then released while the managed side still owns the
    blur node and the chain. *)
Lemma release_once_example :
  exists w3,
    @finalizer demo_raster handle_1 world_3 = Some (tt, w3) /\
    released_once handle_1 (heap world_3) (heap w3) /\
    consistent (heap w3) ({[+ handle_2 +]} ⊎ {[+ handle_3 +]}) /\
    bitmaps w3 = bitmaps world_3 /\
    forall q, q ∈ ({[+ handle_2 +]} ⊎ {[+ handle_3 +]} : gmultiset Z) ->
      is_Some (heap w3 !! q) /\ same_objects (heap world_3) (heap w3) q /\
      forall n x, @filterImage demo_raster n (heap w3) q x = filterImage n (heap world_3) q x.
Proof.
  apply (@release_once demo_raster demo_library empty_world ∅ offset_call handle_1 world_1).
  - apply consistent_empty.
  - args_ok.
  - reflexivity.
  - done.
  - eapply rtc_l.
    { apply (@step_invoke demo_raster demo_library world_1 _ blur_call handle_2 world_2);
        [args_ok|reflexivity]. }
    eapply rtc_l.
    { apply (@step_invoke demo_raster demo_library world_2 _ chain_call handle_3 world_3);
        [|reflexivity].
      repeat (apply List.Forall_cons; [right; multiset_solver|]). apply List.Forall_nil. }
    assert (((∅ ⊎ {[+ handle_1 +]}) ⊎ owned handle_2) ⊎ owned handle_3
            = (({[+ handle_2 +]} ⊎ {[+ handle_3 +]}) ⊎ {[+ handle_1 +]} : gmultiset Z)) as ->
      by (vm_compute; reflexivity).
    apply rtc_refl.
Defined.

(** The scenario of the specification: the offset effect
    (dx = 5.0, dy = -3.0, no input) is built with count 1, and the hook on
    its handle takes the count to 0: the node is deleted and the world is
    empty again. *)
Example offset_effect_released :
  call offset_call empty_world = Some (1, world_1) /\
  @fRefCnt demo_raster <$> heap world_1 !! 1 = Some 1%positive /\
  @finalizer demo_raster 1 world_1 = Some (tt, empty_world).
Proof. repeat split; reflexivity. Qed.

(** Releasing the offset node while the chain refers to it: its count goes
    from 2 to 1, and the chain evaluates as before. *)
Example released_input_stays_reachable :
  @fRefCnt demo_raster <$> heap world_3 !! handle_1 = Some 2%positive /\
  (exists w3, @finalizer demo_raster handle_1 world_3 = Some (tt, w3) /\
     @fRefCnt demo_raster <$> heap w3 !! handle_1 = Some 1%positive /\
     @filterImage demo_raster 2 (heap w3) handle_3 10 = Some 21).
Proof. split; [reflexivity|]. eexists. repeat split; reflexivity. Qed.

(** The further properties, on the chain of the offset node and the blur
    node. *)
Lemma arguments_are_forwarded_example :
  @object demo_raster <$> heap world_3 !! handle_3
    = Some (SkComposeImageFilter handle_1 handle_2).
Proof.
  apply (@arguments_are_forwarded demo_raster demo_library chain_call world_2 handle_3 world_3).
  - args_ok.
  - reflexivity.
  - done.
Defined.

Lemma factory_keeps_counts_exact_example :
  consistent (heap world_1) (∅ ⊎ owned handle_1) /\
  forall p o, heap world_1 !! p = Some o ->
    Pos.to_nat (fRefCnt o)
      = (multiplicity p (∅ ⊎ owned handle_1) + multiplicity p (refs_of (heap world_1)))%nat.
Proof.
  apply (@factory_keeps_counts_exact demo_raster demo_library offset_call empty_world ∅).
  - apply consistent_empty.
  - args_ok.
  - reflexivity.
Defined.

Lemma create_then_release_restores_example :
  @finalizer demo_raster handle_3 world_3 = Some (tt, world_2).
Proof.
  apply (@create_then_release_restores demo_raster demo_library chain_call).
  - args_ok.
  - reflexivity.
Defined.

(** * The further properties on the small library *)

Lemma owned_handle_1 : owned handle_1 = {[+ handle_1 +]}.
Proof. reflexivity. Qed.

Lemma owned_handle_2 : owned handle_2 = {[+ handle_2 +]}.
Proof. reflexivity. Qed.

Lemma consistent_world_1 : consistent (heap world_1) (∅ ⊎ {[+ handle_1 +]}).
Proof.
  rewrite <- owned_handle_1.
  apply (@invoke_consistent demo_raster demo_library offset_call empty_world ∅);
    [apply consistent_empty|args_ok|reflexivity].
Qed.

Lemma consistent_world_2 :
  consistent (heap world_2) ((∅ ⊎ {[+ handle_1 +]}) ⊎ {[+ handle_2 +]}).
Proof.
  rewrite <- owned_handle_2.
  apply (@invoke_consistent demo_raster demo_library blur_call world_1
           (∅ ⊎ {[+ handle_1 +]}));
    [apply consistent_world_1|args_ok|reflexivity].
Qed.

Lemma ranked_world_2 : ranked (heap world_2).
Proof.
  assert (H1 : ranked (heap world_1)).
  { apply (@invoke_ranked demo_raster demo_library offset_call empty_world handle_1);
      [apply closed_empty_world|apply ranked_empty|args_ok|reflexivity]. }
  apply (@invoke_ranked demo_raster demo_library blur_call world_1 handle_2);
    [|exact H1|args_ok|reflexivity].
  apply (consistent_closed _ _ consistent_world_1).
Qed.

Lemma world_3_steps :
  rtc (@step demo_raster demo_library) (empty_world, ∅)
    (world_3, ((∅ ⊎ owned handle_1) ⊎ owned handle_2) ⊎ owned handle_3).
Proof.
  eapply rtc_l.
  { apply (@step_invoke demo_raster demo_library empty_world _ offset_call handle_1 world_1);
      [args_ok|reflexivity]. }
  eapply rtc_l.
  { apply (@step_invoke demo_raster demo_library world_1 _ blur_call handle_2 world_2);
      [args_ok|reflexivity]. }
  eapply rtc_l; [|apply rtc_refl].
  apply (@step_invoke demo_raster demo_library world_2 _ chain_call handle_3 world_3);
    [|reflexivity].
  repeat (apply List.Forall_cons; [right; multiset_solver|]). apply List.Forall_nil.
Qed.


(** After the three constructions the chain node is live and reachable. *)
Lemma live_iff_reachable_example :
  is_Some (heap world_3 !! handle_3) <->
  reach (heap world_3) (((∅ ⊎ owned handle_1) ⊎ owned handle_2) ⊎ owned handle_3) handle_3.
Proof.
  apply (@live_iff_reachable demo_raster demo_library empty_world ∅ world_3).
  - apply consistent_empty.
  - apply ranked_empty.
  - apply world_3_steps.
Defined.

(** The offset effect is built and released: the heap is empty again. *)
Lemma all_released_is_empty_example : heap empty_world = ∅.
Proof.
  apply (@all_released_is_empty demo_raster demo_library empty_world empty_world).
  - reflexivity.
  - eapply rtc_l.
    { apply (@step_invoke demo_raster demo_library empty_world _ offset_call handle_1 world_1);
        [args_ok|reflexivity]. }
    eapply rtc_l; [|apply rtc_refl].
    apply (@step_finalize demo_raster demo_library world_1 ∅ handle_1 empty_world).
    reflexivity.
Defined.

(** The offset node and the blur node are released in either order. *)
Lemma release_order_is_irrelevant_example :
  exists w',
    (@bind demo_raster _ _ (finalizer handle_1) (λ _, finalizer handle_2)) world_2
      = Some (tt, w') /\
    (@bind demo_raster _ _ (finalizer handle_2) (λ _, finalizer handle_1)) world_2
      = Some (tt, w').
Proof.
  apply (@release_order_is_irrelevant demo_raster world_2 ∅ handle_1 handle_2).
  - apply consistent_world_2.
  - apply ranked_world_2.
Defined.

(** offset, blur and the source image (handle 0), chained both ways, on the
    grey level 10: offset(blur(10)) = 21. *)
Definition chain_bc := exec (@createChainEffect demo_raster demo_library handle_2 0) world_2.
Definition chain_a_bc :=
  exec (@createChainEffect demo_raster demo_library handle_1 chain_bc.1) chain_bc.2.
Definition chain_ab := exec (@createChainEffect demo_raster demo_library handle_1 handle_2) world_2.
Definition chain_ab_c :=
  exec (@createChainEffect demo_raster demo_library chain_ab.1 0) chain_ab.2.

Lemma chain_is_associative_example :
  @filterImage demo_raster 3 (heap chain_a_bc.2) chain_a_bc.1 10 = Some 21 /\
  @filterImage demo_raster 3 (heap chain_ab_c.2) chain_ab_c.1 10 = Some 21.
Proof.
  apply (@chain_is_associative demo_raster demo_library world_2 handle_1 handle_2 0
           chain_bc.1 chain_bc.2 chain_a_bc.1 chain_a_bc.2
           chain_ab.1 chain_ab.2 chain_ab_c.1 chain_ab_c.2)
    with (c := 10) (b := 20).
  - apply closed_world_2.
  - right. by eexists.
  - right. by eexists.
  - by left.
  - reflexivity.
  - done.
  - reflexivity.
  - done.
  - reflexivity.
  - done.
  - reflexivity.
  - done.
  - reflexivity.
  - reflexivity.
  - reflexivity.
Defined.

Definition chain_a_0 := exec (@createChainEffect demo_raster demo_library handle_1 0) world_2.
Definition chain_0_a := exec (@createChainEffect demo_raster demo_library 0 handle_1) world_2.

Lemma chain_with_absent_side_example :
  @filterImage demo_raster 2 (heap chain_a_0.2) chain_a_0.1 10
    = filterImage 1 (heap world_2) handle_1 10 /\
  @filterImage demo_raster 2 (heap chain_0_a.2) chain_0_a.1 10
    = filterImage 1 (heap world_2) handle_1 10.
Proof.
  apply (@chain_with_absent_side demo_raster demo_library world_2 handle_1
           chain_a_0.1 chain_a_0.2 chain_0_a.1 chain_0_a.2).
  - apply closed_world_2.
  - right. by eexists.
  - reflexivity.
  - done.
  - reflexivity.
  - done.
Defined.

(** The row of the blur effect, with the hook at address 4096. *)
Definition demo_table := @gRenderEffectMethods demo_raster demo_library 4096.
Definition blur_row : @JNINativeMethod demo_raster :=
  nth 2 demo_table {| name := ""; signature := ""; fnPtr := fn_body (ret 0) |}.

Lemma registered_signatures_fit_example :
  exists params,
    parse_signature (signature blur_row) = Some (params, JNI_J) /\
    (forall args, is_Some (call_native (fnPtr blur_row) args) <-> jtype_of <$> args = params) /\
    @find_method demo_raster demo_library 4096 (name blur_row) = Some blur_row.
Proof.
  apply (@registered_signatures_fit demo_raster demo_library 4096 blur_row).
  do 2 apply list_elem_of_further. apply list_elem_of_here.
Defined.

(** In the world with the three nodes, a blend of the chain with the offset
    node returns, and so does the hook on the chain. *)
Lemma contract_is_enough_example :
  (forall c,
     Forall (usable (((∅ ⊎ owned handle_1) ⊎ owned handle_2) ⊎ owned handle_3))
            (input_handles c) ->
     known_bitmap world_3 c ->
     exists handle w', call c world_3 = Some (handle, w')) /\
  (forall handle,
     handle ∈ (((∅ ⊎ owned handle_1) ⊎ owned handle_2) ⊎ owned handle_3 : gmultiset Z) ->
     exists w', @finalizer demo_raster handle world_3 = Some (tt, w')).
Proof.
  apply (@contract_is_enough demo_raster demo_library empty_world ∅ world_3).
  - apply consistent_empty.
  - apply world_3_steps.
Defined.

(** An offset effect on the address 77, at which nothing lives. *)
Lemma unknown_handle_is_undefined_example :
  call (nativeCreateOffsetEffect float_5 float_minus_3 77) world_2 = None.
Proof.
  apply (@unknown_handle_is_undefined demo_raster demo_library).
  left. exists 77. split_and!; [apply list_elem_of_here|done|reflexivity].
Defined.
